(** * ScriptRunner: the scripting host of the bot (src/src/ScriptRunner.cpp)

    A shallow embedding of the timer registry, the event dispatcher and
    the native functions that [ScriptRunner::go] installs on the script
    object [mf], followed by the properties of them that the specification
    states.

    Conventions.
    - The members of [ScriptRunner] form the record [Host]; every C++
      method becomes a function that takes the host and returns the new one.
    - The script evaluator (QtScript) is an external collaborator: what a
      script function does when it is called is the parameter [script_call]
      of the environment [Env]; it may change the host in any way a
      script can cause (through the native functions, the handler arrays,
      or by throwing).
    - [qsreal] is IEEE binary64, modelled by [spec_float] with the
      operations of the standard library at precision 53.
    - A result of type [option _] is [None] where the C++ program has no
      defined continuation: a failed [Q_ASSERT] in a build with assertions,
      a conversion of a [double] to [int] that does not fit, or the
      increment of the [int] timer counter at [INT_MAX]. *)

From Stdlib Require Import ZArith QArith Qround Floats.SpecFloat Lia.
From stdpp Require Import gmap strings list.

Local Open Scope string_scope.
Local Open Scope Z_scope.

(** ** Doubles *)

Module Double.

Definition double : Type := spec_float.

Definition prec : Z := 53.
Definition emax : Z := 1024.

(** [a + b] on doubles, rounded to nearest, ties to even. *)
Definition add (a b : double) : double := SFadd prec emax a b.
Definition div (a b : double) : double := SFdiv prec emax a b.

(** The double nearest to an integer (exact below 2^53). *)
Definition of_Z (n : Z) : double := binary_normalize prec emax n 0 false.

Definition zero : double := S754_zero false.
Definition one : double := S754_finite false 4503599627370496 (-52).
(** The literal [0.5]. *)
Definition half : double := S754_finite false 4503599627370496 (-53).

Definition is_finite (d : double) : bool :=
  match d with
  | S754_zero _ | S754_finite _ _ _ => true
  | _ => false
  end.

(** The exact value of a finite double, m * 2^e, as a rational. *)
Definition toQ (d : double) : Q :=
  match d with
  | S754_finite s m e =>
      if 0 <=? e then inject_Z (Z.shiftl (cond_Zopp s (Zpos m)) e)
      else Qmake (cond_Zopp s (Zpos m)) (Z.to_pos (2 ^ (- e)))
  | _ => 0%Q
  end.

(** [std::floor]: the largest integral value not above [d]. The result
    of [std::floor] is that integer as a double (it is always
    representable); NaN and the infinities are returned unchanged and
    have no integral value. *)
Definition floor (d : double) : option Z :=
  match d with
  | S754_zero _ => Some 0
  | S754_finite s m e => Some (Z.shiftl (cond_Zopp s (Zpos m)) e)
  | _ => None
  end.

(** Truncation toward zero. *)
Definition trunc (d : double) : option Z :=
  match d with
  | S754_zero _ => Some 0
  | S754_finite s m e => Some (cond_Zopp s (Z.shiftl (Zpos m) e))
  | _ => None
  end.

Definition INT_MIN : Z := - 2 ^ 31.
Definition INT_MAX : Z := 2 ^ 31 - 1.

(** The C++ conversion of an integral value to [int]: defined only when
    the value is representable. *)
Definition int_of_integral (z : Z) : option Z :=
  if (INT_MIN <=? z) && (z <=? INT_MAX) then Some z else None.

(** [(int) d]: truncates; undefined when the truncated value does not
    fit, or for NaN and the infinities. *)
Definition to_int (d : double) : option Z :=
  match trunc d with
  | Some z => int_of_integral z
  | None => None
  end.

(** ECMAScript ToInteger, as [QScriptValue::toInteger] returns it: NaN
    becomes +0, everything else is truncated (infinities stay). *)
Definition ToInteger (d : double) : double :=
  match d with
  | S754_nan => zero
  | S754_finite s m e =>
      if 0 <=? e then d else of_Z (cond_Zopp s (Z.shiftl (Zpos m) e))
  | _ => d
  end.

(** ECMAScript ToInt32, as [QScriptValue::toInt32] returns it. *)
Definition ToInt32 (d : double) : Z :=
  match trunc d with
  | Some z => let w := z mod 2 ^ 32 in if w <? 2 ^ 31 then w else w - 2 ^ 32
  | None => 0
  end.

End Double.

Abbreviation double := Double.double.

(** ** Script values *)

(** [QScriptValue], by value. [VInvalid] is the default-constructed
    [QScriptValue()]; [VError m] is the Error object that
    [QScriptContext::throwError(m)] creates; a function is known by its
    name, what it does is up to the evaluator. *)
#[warnings="-register-all"]
Inductive QScriptValue : Type :=
  | VInvalid
  | VUndefined
  | VNull
  | VBool (b : bool)
  | VNumber (d : double)
  | VString (s : string)
  | VFunction (name : string)
  | VError (message : string)
  | VArray (elements : list QScriptValue)
  | VObject (properties : list (string * QScriptValue)).

Definition isNumber (v : QScriptValue) : bool :=
  match v with VNumber _ => true | _ => false end.
Definition isFunction (v : QScriptValue) : bool :=
  match v with VFunction _ => true | _ => false end.
Definition isArray (v : QScriptValue) : bool :=
  match v with VArray _ => true | _ => false end.
(** Functions, errors and arrays are objects too. *)
Definition isObject (v : QScriptValue) : bool :=
  match v with
  | VFunction _ | VError _ | VArray _ | VObject _ => true
  | _ => false
  end.

Fixpoint assoc (name : string) (ps : list (string * QScriptValue)) : QScriptValue :=
  match ps with
  | [] => VInvalid
  | (k, v) :: ps' => if String.eqb k name then v else assoc name ps'
  end.

(** [QScriptValue::property(name)]: an invalid value when there is no such
    property. Only the own properties of plain objects are modelled. *)
Definition property (v : QScriptValue) (name : string) : QScriptValue :=
  match v with
  | VObject ps => assoc name ps
  | _ => VInvalid
  end.

(** [v.property("length").toInt32()]: the length of an array, as a 32-bit
    signed integer; a value without a length yields an invalid value,
    whose [toInt32] is 0. *)
Definition length_toInt32 (v : QScriptValue) : Z :=
  match v with
  | VArray l =>
      let w := Z.of_nat (length l) mod 2 ^ 32 in
      if w <? 2 ^ 31 then w else w - 2 ^ 32
  | _ => 0
  end.

(** [v.property(i)] for an array index. *)
Definition property_at (v : QScriptValue) (i : nat) : QScriptValue :=
  match v with
  | VArray l => nth i l VInvalid
  | _ => VInvalid
  end.

(** ** The members of ScriptRunner *)

Record Int3D : Type := mkInt3D { x : Z; y : Z; z : Z }.

(** [TimedFunction(id, repeat, this_ref, function)]. *)
Record TimedFunction : Type := mkTimedFunction {
  tf_id : Z;
  tf_repeat : bool;
  tf_this_ref : QScriptValue;
  tf_function : QScriptValue
}.

(** A [QTimer] object on the heap; a pointer to one is its address, and
    [NULL] is 0. *)
Record QTimer : Type := mkQTimer { interval : Z; isActive : bool }.
Definition NULL : Z := 0.

(** What the host does to the world outside it, in the order it happens. *)
Inductive Effect : Type :=
  | qWarning (line : string)
  | QThread_exit (return_code : Z)
  | Game_shutdown (return_code : Z)
  | QCoreApplication_exit (return_code : Z)
  | Game_blockAt (pt : Int3D).

Record Host : Type := mkHost {
  m_started_game : bool;
  m_exiting : bool;
  m_timer_count : Z;
  (** QHash from int to QTimer pointer *)
  m_timer_ptrs : gmap Z Z;
  (** QHash from QTimer pointer to TimedFunction *)
  m_script_timers : gmap Z TimedFunction;
  (** the properties of the script object [m_handler_map] *)
  m_handler_map : gmap string QScriptValue;
  (** [m_engine]: [uncaughtException().toString()] while
      [hasUncaughtException()], and the backtrace that goes with it *)
  uncaughtException : option string;
  uncaughtExceptionBacktrace : list string;
  (** the live QTimer objects and the next address [new] hands out *)
  qtimers : gmap Z QTimer;
  next_address : Z;
  (** [m_game]: the block type at each position *)
  game_world : Int3D -> Z;
  effects : list Effect
}.

Definition with_m_started_game (b : bool) (h : Host) : Host :=
  mkHost b (m_exiting h) (m_timer_count h) (m_timer_ptrs h)
    (m_script_timers h) (m_handler_map h) (uncaughtException h)
    (uncaughtExceptionBacktrace h) (qtimers h) (next_address h)
    (game_world h) (effects h).

Definition with_m_exiting (b : bool) (h : Host) : Host :=
  mkHost (m_started_game h) b (m_timer_count h) (m_timer_ptrs h)
    (m_script_timers h) (m_handler_map h) (uncaughtException h)
    (uncaughtExceptionBacktrace h) (qtimers h) (next_address h)
    (game_world h) (effects h).

Definition with_m_timer_count (n : Z) (h : Host) : Host :=
  mkHost (m_started_game h) (m_exiting h) n (m_timer_ptrs h)
    (m_script_timers h) (m_handler_map h) (uncaughtException h)
    (uncaughtExceptionBacktrace h) (qtimers h) (next_address h)
    (game_world h) (effects h).

Definition with_m_timer_ptrs (m : gmap Z Z) (h : Host) : Host :=
  mkHost (m_started_game h) (m_exiting h) (m_timer_count h) m
    (m_script_timers h) (m_handler_map h) (uncaughtException h)
    (uncaughtExceptionBacktrace h) (qtimers h) (next_address h)
    (game_world h) (effects h).

Definition with_m_script_timers (m : gmap Z TimedFunction) (h : Host) : Host :=
  mkHost (m_started_game h) (m_exiting h) (m_timer_count h) (m_timer_ptrs h)
    m (m_handler_map h) (uncaughtException h)
    (uncaughtExceptionBacktrace h) (qtimers h) (next_address h)
    (game_world h) (effects h).

Definition with_m_handler_map (m : gmap string QScriptValue) (h : Host) : Host :=
  mkHost (m_started_game h) (m_exiting h) (m_timer_count h) (m_timer_ptrs h)
    (m_script_timers h) m (uncaughtException h)
    (uncaughtExceptionBacktrace h) (qtimers h) (next_address h)
    (game_world h) (effects h).

Definition with_exception (e : option string) (bt : list string) (h : Host) : Host :=
  mkHost (m_started_game h) (m_exiting h) (m_timer_count h) (m_timer_ptrs h)
    (m_script_timers h) (m_handler_map h) e bt (qtimers h) (next_address h)
    (game_world h) (effects h).

Definition with_qtimers (m : gmap Z QTimer) (a : Z) (h : Host) : Host :=
  mkHost (m_started_game h) (m_exiting h) (m_timer_count h) (m_timer_ptrs h)
    (m_script_timers h) (m_handler_map h) (uncaughtException h)
    (uncaughtExceptionBacktrace h) m a (game_world h) (effects h).

Definition emit (e : Effect) (h : Host) : Host :=
  mkHost (m_started_game h) (m_exiting h) (m_timer_count h) (m_timer_ptrs h)
    (m_script_timers h) (m_handler_map h) (uncaughtException h)
    (uncaughtExceptionBacktrace h) (qtimers h) (next_address h)
    (game_world h) (effects h ++ [e]).

(** ** The environment of the host *)

(** One call of a script function by the host, as the host issued it. *)
Record Invocation : Type := mkInvocation {
  inv_function : QScriptValue;
  inv_this : QScriptValue;
  inv_args : list QScriptValue
}.

(** [QScriptContext]: the arguments of a native call, the [this] object of
    the calling context, and the backtrace an error thrown here carries. *)
Record QScriptContext : Type := mkContext {
  arguments : list QScriptValue;
  parent_thisObject : QScriptValue;
  backtrace : list string
}.

(** What the host takes from outside this file. *)
Record Env : Type := mkEnv {
  (** the evaluator: the effect on the host of calling the script function
      of that name with that [this] and those arguments, up to its return *)
  script_call : string -> QScriptValue -> list QScriptValue -> Host -> Host;
  (** whether assertions are compiled out *)
  QT_NO_DEBUG : bool;
  (** [tr(format).arg(...)]: the translated and filled-in message *)
  tr_arg : string -> list Z -> string;
  (** ECMAScript ToNumber on strings and objects *)
  engine_toNumber : QScriptValue -> double;
  (** [TimedFunction()], from the header *)
  TimedFunction_default : TimedFunction
}.

Definition newline : string := String (Ascii.ascii_of_nat 10) EmptyString.

Section ScriptRunner.

Context (env : Env).

(** [Q_ASSERT(cond)]: nothing when assertions are compiled out; otherwise
    the program continues only if [cond] holds. *)
Definition Q_ASSERT {A : Type} (cond : bool) (k : option A) : option A :=
  if QT_NO_DEBUG env then k else if cond then k else None.

(** [QScriptValue::toNumber]. *)
Definition toNumber (v : QScriptValue) : double :=
  match v with
  | VInvalid => Double.zero
  | VUndefined => S754_nan
  | VNull => Double.zero
  | VBool b => if b then Double.one else Double.zero
  | VNumber d => d
  | _ => engine_toNumber env v
  end.

Definition toInteger (v : QScriptValue) : double := Double.ToInteger (toNumber v).
Definition toInt32 (v : QScriptValue) : Z := Double.ToInt32 (toNumber v).

(** [QScriptValue::call(thisObject, args)]: does nothing unless the value
    is a function. The invocation is recorded with [this] as the host
    passes it. *)
Definition QScriptValue_call (f this : QScriptValue) (args : list QScriptValue)
    (h : Host) : Host * list Invocation :=
  match f with
  | VFunction name => (script_call env name this args h, [mkInvocation f this args])
  | _ => (h, [])
  end.

(** [QScriptContext::argument(i)]: undefined when out of range. *)
Definition argument (context : QScriptContext) (i : nat) : QScriptValue :=
  nth i (arguments context) VUndefined.

Definition argumentCount (context : QScriptContext) : Z :=
  Z.of_nat (length (arguments context)).

(** [QScriptContext::throwError(text)]: the error becomes the engine's
    pending exception and is returned. *)
Definition throwError (context : QScriptContext) (text : string) (h : Host)
    : QScriptValue * Host :=
  (VError text,
   with_exception (Some (String.append "Error: " text)) (backtrace context) h).

Definition shutdown (return_code : Z) (h : Host) : Host :=
  let h := with_m_exiting true h in
  if m_started_game h then
    emit (Game_shutdown return_code) (emit (QThread_exit return_code) h)
  else
    emit (QCoreApplication_exit return_code) h.

Definition checkEngine (while_doing_what : string) (h : Host) : Host :=
  if m_exiting h then h
  else
    match uncaughtException h with
    | None => h
    | Some e =>
        let h :=
          if negb (String.eqb e "Error: SystemExit") then
            let h :=
              if negb (String.eqb while_doing_what "") then
                emit (qWarning (String.append "Error while " while_doing_what)) h
              else h in
            let h := emit (qWarning e) h in
            emit (qWarning (String.concat newline (uncaughtExceptionBacktrace h))) h
          else h in
        shutdown 1 h
    end.

(** [delete timer]: the object is gone and can fire no more; deleting
    [NULL] does nothing. *)
Definition delete_QTimer (timer : Z) (h : Host) : Host :=
  if timer =? NULL then h
  else with_qtimers (delete timer (qtimers h)) (next_address h) h.

Definition dispatchTimeout (sender : Z) (h : Host) : Host * list Invocation :=
  let timer := sender in
  let tf := default (TimedFunction_default env) (m_script_timers h !! timer) in
  let h :=
    if negb (tf_repeat tf) then
      let h := with_m_timer_ptrs (delete (tf_id tf) (m_timer_ptrs h)) h in
      let h := with_m_script_timers (delete timer (m_script_timers h)) h in
      delete_QTimer timer h
    else h in
  QScriptValue_call (tf_function tf) (tf_this_ref tf) [] h.

(** The [timeout()] signal of a timer reaches its slot only while the
    timer object is alive and running. *)
Definition QTimer_timeout (timer : Z) (h : Host) : option (Host * list Invocation) :=
  match qtimers h !! timer with
  | Some t => if isActive t then Some (dispatchTimeout timer h) else None
  | None => None
  end.

(** [return m_timer_count++]. The counter is an int: at [INT_MAX] the
    increment overflows, which C++ leaves undefined, so there the call
    has no result. *)
Definition nextTimerId (h : Host) : option (Z * Host) :=
  if m_timer_count h <? Double.INT_MAX then
    Some (m_timer_count h, with_m_timer_count (m_timer_count h + 1) h)
  else None.

(** [int ScriptRunner::setTimeout(func, ms, this_obj, repeat)]. *)
Definition ScriptRunner_setTimeout (func : QScriptValue) (ms : Z)
    (this_obj : QScriptValue) (repeat : bool) (h : Host) : option (Z * Host) :=
  let new_timer := next_address h in
  let h := with_qtimers (<[new_timer := mkQTimer ms false]> (qtimers h))
             (new_timer + 1) h in
  match nextTimerId h with
  | None => None
  | Some (timer_id, h) =>
      let h := with_m_timer_ptrs (<[timer_id := new_timer]> (m_timer_ptrs h)) h in
      let h := with_m_script_timers
                 (<[new_timer := mkTimedFunction timer_id repeat this_obj func]>
                    (m_script_timers h)) h in
      let h := with_qtimers (<[new_timer := mkQTimer ms true]> (qtimers h))
                 (next_address h) h in
      Some (timer_id, h)
  end.

(** [argCount(context, error, min, max)]; [max] is -1 when the call
    leaves it out. The result is the flag, the error and the host. *)
Definition argCount (context : QScriptContext) (error : QScriptValue)
    (arg_count_min arg_count_max : Z) (h : Host) : bool * QScriptValue * Host :=
  let arg_count_max :=
    if arg_count_max =? -1 then arg_count_min else arg_count_max in
  if (arg_count_min <=? argumentCount context)
     && (argumentCount context <=? arg_count_max) then (true, error, h)
  else
    let message :=
      if arg_count_min =? arg_count_max then
        tr_arg env "Expected %1 arguments. Received %2"
          [arg_count_min; argumentCount context]
      else
        tr_arg env "Expected between %1 and %2 arguments. Received %3"
          [arg_count_min; arg_count_max; argumentCount context] in
    let '(error, h) := throwError context message h in
    (false, error, h).

Definition maybeThrowArgumentError (context : QScriptContext)
    (error : QScriptValue) (arg_is_valid : bool) (h : Host)
    : bool * QScriptValue * Host :=
  if arg_is_valid then (true, error, h)
  else
    let '(error, h) := throwError context "Invalid Argument" h in
    (false, error, h).

(** *** Native functions installed on [mf]

    Each takes the script context of the call; [me], the parent of the
    engine, is the host. *)

Definition NativeFunction : Type :=
  QScriptContext -> Host -> option (QScriptValue * Host).

Definition setTimeout : NativeFunction := fun context h =>
  let error := VInvalid in
  let '(ok, error, h) := argCount context error 2 (-1) h in
  if negb ok then Some (error, h) else
  let func := argument context 0 in
  let '(ok, error, h) := maybeThrowArgumentError context error (isFunction func) h in
  if negb ok then Some (error, h) else
  let ms := argument context 1 in
  let '(ok, error, h) := maybeThrowArgumentError context error (isNumber ms) h in
  if negb ok then Some (error, h) else
  match Double.to_int (toInteger ms) with
  | None => None
  | Some ms =>
      match ScriptRunner_setTimeout func ms (parent_thisObject context) false h with
      | None => None
      | Some (timer_id, h) => Some (VNumber (Double.of_Z timer_id), h)
      end
  end.

Definition setInterval : NativeFunction := fun context h =>
  let error := VInvalid in
  let '(ok, error, h) := argCount context error 2 (-1) h in
  if negb ok then Some (error, h) else
  let func := argument context 0 in
  let '(ok, error, h) := maybeThrowArgumentError context error (isFunction func) h in
  if negb ok then Some (error, h) else
  let ms := argument context 1 in
  let '(ok, error, h) := maybeThrowArgumentError context error (isNumber ms) h in
  if negb ok then Some (error, h) else
  match Double.to_int (toInteger ms) with
  | None => None
  | Some ms =>
      match ScriptRunner_setTimeout func ms (parent_thisObject context) true h with
      | None => None
      | Some (timer_id, h) => Some (VNumber (Double.of_Z timer_id), h)
      end
  end.

Definition clearTimeout : NativeFunction := fun context h =>
  let error := VInvalid in
  let '(ok, error, h) := argCount context error 2 (-1) h in
  if negb ok then Some (error, h) else
  let id := argument context 0 in
  let '(ok, error, h) := maybeThrowArgumentError context error (isNumber id) h in
  if negb ok then Some (error, h) else
  match Double.to_int (toInteger id) with
  | None => None
  | Some int_id =>
      let ptr := default NULL (m_timer_ptrs h !! int_id) in
      let h := with_m_timer_ptrs (delete int_id (m_timer_ptrs h)) h in
      let h := with_m_script_timers (delete ptr (m_script_timers h)) h in
      let h := delete_QTimer ptr h in
      Some (VInvalid, h)
  end.

Definition Point : NativeFunction := fun context h =>
  let error := VInvalid in
  let '(ok, error, h) := argCount context error 3 (-1) h in
  if negb ok then Some (error, h) else
  let pt := VObject [("x", argument context 0);
                     ("y", argument context 1);
                     ("z", argument context 2)] in
  Some (pt, h).

Definition exit : NativeFunction := fun context h =>
  let error := VInvalid in
  let '(ok, error, h) := argCount context error 0 1 h in
  if negb ok then Some (error, h) else
  let return_code := 0 in
  let check :=
    if argumentCount context =? 1 then
      let return_code_value := argument context 0 in
      let '(ok, error, h) :=
        maybeThrowArgumentError context error (isNumber return_code_value) h in
      if negb ok then inl (error, h) else inr (toInt32 return_code_value, h)
    else inr (return_code, h) in
  match check with
  | inl returned => Some returned
  | inr (return_code, h) =>
      (* TODO: care about the return code *)
      Some (throwError context "SystemExit" h)
  end.

Definition valueToNearestInt (value : QScriptValue) : option Z :=
  match Double.floor (Double.add (toNumber value) Double.half) with
  | Some n => Double.int_of_integral n
  | None => None
  end.

Definition blockAt : NativeFunction := fun context h =>
  let error := VInvalid in
  let '(ok, error, h) := argCount context error 1 (-1) h in
  if negb ok then Some (error, h) else
  let js_pt := argument context 0 in
  let '(ok, error, h) := maybeThrowArgumentError context error (isObject js_pt) h in
  if negb ok then Some (error, h) else
  match valueToNearestInt (VNumber (toNumber (property js_pt "x"))),
        valueToNearestInt (VNumber (toNumber (property js_pt "y"))),
        valueToNearestInt (VNumber (toNumber (property js_pt "z"))) with
  | Some px, Some py, Some pz =>
      let pt := mkInt3D px py pz in
      let block_type := game_world h pt in
      let h := emit (Game_blockAt pt) h in
      let result := VObject [("type", VNumber (Double.of_Z block_type))] in
      Some (result, h)
  | _, _, _ => None
  end.

(** The properties [go] sets on [mf], for the native functions above, in
    the order of the source. *)
Definition mf_obj : list (string * NativeFunction) :=
  [ ("exit", exit);
    ("setTimeout", setTimeout);
    ("clearTimeout", clearTimeout);
    ("setInterval", setInterval);
    ("clearInterval", clearTimeout);
    ("blockAt", blockAt);
    ("Point", Point) ].

Fixpoint mf_property (bindings : list (string * NativeFunction)) (name : string)
    : option NativeFunction :=
  match bindings with
  | [] => None
  | (k, f) :: rest => if String.eqb k name then Some f else mf_property rest name
  end.

(** A script calls [mf.name(arguments)]. *)
Definition call_mf (name : string) (context : QScriptContext) (h : Host)
    : option (QScriptValue * Host) :=
  match mf_property mf_obj name with
  | Some f => f context h
  | None => None
  end.

(** *** Event dispatch *)

(** The [foreach] of [raiseEvent] over the copied list. *)
Fixpoint call_handlers (event_name : string) (args : list QScriptValue)
    (handlers_list : list QScriptValue) (h : Host)
    : option (Host * list Invocation) :=
  match handlers_list with
  | [] => Some (h, [])
  | handler :: rest =>
      Q_ASSERT (isFunction handler)
        (let '(h, called) := QScriptValue_call handler VInvalid args h in
         let h := checkEngine (String.append "calling event handler" event_name) h in
         match call_handlers event_name args rest h with
         | Some (h, called_later) => Some (h, (called ++ called_later)%list)
         | None => None
         end)
  end.

Definition raiseEvent (event_name : string) (args : list QScriptValue) (h : Host)
    : option (Host * list Invocation) :=
  let handlers_value := default VInvalid (m_handler_map h !! event_name) in
  Q_ASSERT (isArray handlers_value)
    (let length := length_toInt32 handlers_value in
     if length =? 0 then Some (h, [])
     else
       (* create copy so handlers can remove themselves *)
       let handlers_list :=
         map (property_at handlers_value) (seq 0 (Z.to_nat length)) in
       call_handlers event_name args handlers_list h).

End ScriptRunner.

(** The calls a dispatch issues for a list of handlers: each with an
    invalid [this] and the arguments of the event. *)
Definition handler_invocations (args : list QScriptValue)
    (handlers : list QScriptValue) : list Invocation :=
  map (fun f => mkInvocation f VInvalid args) handlers.

(** The host after the handlers of a snapshot have run in order: each is
    called with an invalid [this] and the arguments of the event, and the
    engine is checked after each. *)
Fixpoint after_handlers (env : Env) (event_name : string)
    (args : list QScriptValue) (handlers : list QScriptValue) (h : Host) : Host :=
  match handlers with
  | [] => h
  | f :: rest =>
      after_handlers env event_name args rest
        (checkEngine (String.append "calling event handler" event_name)
           (fst (QScriptValue_call env f VInvalid args h)))
  end.

(** ** Well-formed registries *)

(** [new] never returns [NULL], so [NULL] is no key of the timer tables. *)
Definition registry_ok (h : Host) : Prop :=
  0 < next_address h
  /\ m_script_timers h !! NULL = None
  /\ qtimers h !! NULL = None.

(** The host as the constructor leaves it, for a given game world. *)
Definition constructed (world : Int3D -> Z) : Host :=
  mkHost false false 0 ∅ ∅ ∅ None [] ∅ 1 world [].

(** The host once [go] has evaluated the main script without error and
    started the game: from here on events and timers are dispatched. *)
Definition running (world : Int3D -> Z) : Host :=
  with_m_started_game true (constructed world).

(** ** Scripts for the examples

    A script function is a list of statements, run in order until one of
    them leaves an exception pending. The statements cover what the
    examples need: throwing, calling a native function of [mf] and editing
    a handler array. *)

Inductive Stmt : Type :=
  | SThrow (message : string)
  | SCallMf (name : string) (args : list QScriptValue)
  | SPush (event_name : string) (f : QScriptValue)
  | SRemove (event_name : string) (function_name : string).

Definition Program : Type := list (string * list Stmt).

Definition is_function_named (name : string) (v : QScriptValue) : bool :=
  match v with
  | VFunction n => String.eqb n name
  | _ => false
  end.

Definition edit_handlers (event_name : string)
    (f : list QScriptValue -> list QScriptValue) (h : Host) : Host :=
  match m_handler_map h !! event_name with
  | Some (VArray l) =>
      with_m_handler_map (<[event_name := VArray (f l)]> (m_handler_map h)) h
  | _ => h
  end.

(** The natives do not call back into the script, so the interpreter
    reaches them through an environment without script functions. *)
Definition native_env (no_debug : bool) : Env :=
  mkEnv (fun _ _ _ h => h) no_debug (fun format _ => format)
    (fun _ => S754_nan) (mkTimedFunction 0 false VInvalid VInvalid).

Definition exec_stmt (no_debug : bool) (this : QScriptValue) (s : Stmt) (h : Host)
    : Host :=
  match s with
  | SThrow message =>
      with_exception (Some (String.append "Error: " message)) ["<script>"] h
  | SCallMf name args =>
      match call_mf (native_env no_debug) name (mkContext args this ["<native>"]) h with
      | Some (_, h') => h'
      | None => h
      end
  | SPush event_name f => edit_handlers event_name (fun l => (l ++ [f])%list) h
  | SRemove event_name name =>
      edit_handlers event_name
        (filter (fun v => is_function_named name v = false)) h
  end.

Fixpoint exec_body (no_debug : bool) (this : QScriptValue) (body : list Stmt)
    (h : Host) : Host :=
  match body with
  | [] => h
  | s :: rest =>
      let h := exec_stmt no_debug this s h in
      match uncaughtException h with
      | Some _ => h
      | None => exec_body no_debug this rest h
      end
  end.

Fixpoint body_of (program : Program) (name : string) : list Stmt :=
  match program with
  | [] => []
  | (k, body) :: rest => if String.eqb k name then body else body_of rest name
  end.

(** A call saves the pending exception, runs the body, and restores the
    saved one if the body left none of its own. *)
Definition interp (program : Program) (no_debug : bool)
    (name : string) (this : QScriptValue) (args : list QScriptValue) (h : Host)
    : Host :=
  let saved := uncaughtException h in
  let saved_backtrace := uncaughtExceptionBacktrace h in
  let h := exec_body no_debug this (body_of program name) (with_exception None [] h) in
  match uncaughtException h with
  | Some _ => h
  | None => with_exception saved saved_backtrace h
  end.

Definition script_env (program : Program) (no_debug : bool) : Env :=
  mkEnv (interp program no_debug) no_debug (fun format _ => format)
    (fun _ => S754_nan) (mkTimedFunction 0 false VInvalid VInvalid).

Definition flat_world : Int3D -> Z := fun _ => 0.

Definition with_handlers (event_name : string) (l : list QScriptValue) (h : Host)
    : Host :=
  with_m_handler_map (<[event_name := VArray l]> (m_handler_map h)) h.

(** Two chat handlers, the first of which throws. *)
Definition throwing_program : Program :=
  [ ("thrower", [SThrow "boom"]); ("second", []) ].

(** Two chat handlers, the first of which removes itself and registers
    a third. *)
Definition once_program : Program :=
  [ ("once", [SRemove "onChat" "once"; SPush "onChat" (VFunction "late")]);
    ("always", []);
    ("late", []) ].

(** What a handler of [once_program] does to the handler arrays: [once]
    takes itself off the chat array and appends [late], the others edit
    nothing. *)
Definition once_edit (f : QScriptValue) (m : gmap string QScriptValue)
    : gmap string QScriptValue :=
  match f with
  | VFunction "once" =>
      match m !! "onChat" with
      | Some (VArray l) =>
          <["onChat" :=
              VArray (filter (fun v => is_function_named "once" v = false) l
                        ++ [VFunction "late"])]> m
      | _ => m
      end
  | _ => m
  end.

(** Two chat handlers, the first of which calls [mf.exit(7)]. *)
Definition quitting_program : Program :=
  [ ("quitter", [SCallMf "exit" [VNumber (Double.of_Z 7)]]); ("second", []) ].

(** The doubles of the literals 1.5, 2.5 and 3.49, and the largest double
    below 0.5. *)
Definition d1_5 : double := Double.div (Double.of_Z 3) (Double.of_Z 2).
Definition d2_5 : double := Double.div (Double.of_Z 5) (Double.of_Z 2).
Definition d3_49 : double := Double.div (Double.of_Z 349) (Double.of_Z 100).
Definition below_half : double := S754_finite false 9007199254740991 (-54).

(** The hosts of the examples. *)
Definition chat_args : list QScriptValue := [VString "bob"; VString "hi"].

Definition throwing_host : Host :=
  with_handlers "onChat" [VFunction "thrower"; VFunction "second"]
    (running flat_world).

Definition once_host : Host :=
  with_handlers "onChat" [VFunction "once"; VFunction "always"]
    (running flat_world).

Definition quitting_host : Host :=
  with_handlers "onChat" [VFunction "quitter"; VFunction "second"]
    (running flat_world).

(** The host after a scheduling call (the host itself where the call has
    no result). *)
Definition scheduled (func : QScriptValue) (ms : Z) (this_obj : QScriptValue)
    (repeat : bool) (h : Host) : Host :=
  match ScriptRunner_setTimeout func ms this_obj repeat h with
  | Some (_, h') => h'
  | None => h
  end.

(** After [setTimeout(thrower, 100)] with receiver "receiver": timer 0 at
    address 1. *)
Definition one_shot_host : Host :=
  scheduled (VFunction "thrower") 100 (VString "receiver") false
    (running flat_world).

(** After [setInterval(second, 100)]: timer 0 at address 1. *)
Definition repeating_host : Host :=
  scheduled (VFunction "second") 100 (VString "receiver") true
    (running flat_world).

(** The one-shot timer above has fired (its callback did nothing). *)
Definition fired_host : Host :=
  fst (dispatchTimeout (script_env [] false) 1 one_shot_host).

(** [clearTimeout(0, undefined)] and [clearTimeout(0)]. *)
Definition clear_0_two_arguments : QScriptContext :=
  mkContext [VNumber (Double.of_Z 0); VUndefined] VUndefined [].
Definition clear_0_one_argument : QScriptContext :=
  mkContext [VNumber (Double.of_Z 0)] VUndefined [].

(** [exit(7)]. *)
Definition exit_7 : QScriptContext :=
  mkContext [VNumber (Double.of_Z 7)] VUndefined [].

(** The floor of the double sum [v + 0.5], as an integer; whether that sum
    is a finite double; whether it is exactly [v] plus one half. *)
Definition floor_of_sum (v : double) : Z :=
  Qfloor (Double.toQ (Double.add v Double.half)).
Definition sum_finite (v : double) : bool :=
  Double.is_finite (Double.add v Double.half).
Definition sum_exact (v : double) : bool :=
  Qeq_bool (Double.toQ (Double.add v Double.half)) (Double.toQ v + (1 # 2)).

(** Rounding to the nearest integer, halves upwards, on the exact value. *)
Definition round_half_up (v : double) : Z := Qfloor (Double.toQ v + (1 # 2)).

Definition point_object (vx vy vz : double) : QScriptValue :=
  VObject [("x", VNumber vx); ("y", VNumber vy); ("z", VNumber vz)].

(** ** The timer registry as a whole *)

(** Ids and timers correspond one to one, every registered timer is a
    live, running object, every live object is registered, and the
    counters lie beyond all ids and addresses handed out. *)
Definition timers_consistent (h : Host) : Prop :=
  0 < next_address h
  /\ 0 <= m_timer_count h
  /\ (forall id p, m_timer_ptrs h !! id = Some p ->
        0 <= id < m_timer_count h
        /\ exists tf, m_script_timers h !! p = Some tf /\ tf_id tf = id)
  /\ (forall p tf, m_script_timers h !! p = Some tf ->
        0 < p < next_address h
        /\ m_timer_ptrs h !! tf_id tf = Some p
        /\ exists t, qtimers h !! p = Some t /\ isActive t = true)
  /\ (forall p t, qtimers h !! p = Some t -> is_Some (m_script_timers h !! p)).

(** The three removals that cancelling and one-shot firing share. *)
Definition unregistered (id timer : Z) (h : Host) : Host :=
  delete_QTimer timer
    (with_m_script_timers (delete timer (m_script_timers h))
       (with_m_timer_ptrs (delete id (m_timer_ptrs h)) h)).

(** Two hosts with the same timer registry. *)
Definition same_registry (h h' : Host) : Prop :=
  m_timer_count h' = m_timer_count h
  /\ m_timer_ptrs h' = m_timer_ptrs h
  /\ m_script_timers h' = m_script_timers h
  /\ qtimers h' = qtimers h
  /\ next_address h' = next_address h.

(** ** Exact values of doubles *)

(** The rational a * 2^e. *)
Definition dyadic (a e : Z) : Q :=
  if 0 <=? e then inject_Z (Z.shiftl a e) else Qmake a (Z.to_pos (2 ^ (- e))).

(** ** The rest of the host: the game, the files and the output streams *)

Definition isString (v : QScriptValue) : bool :=
  match v with VString _ => true | _ => false end.
Definition isBool (v : QScriptValue) : bool :=
  match v with VBool _ => true | _ => false end.

(** [Server::EntityPosition], each field as the number the script sees. *)
Record EntityPosition : Type := mkEntityPosition {
  pos_x : double; pos_y : double; pos_z : double;
  pos_dx : double; pos_dy : double; pos_dz : double;
  pos_yaw : double; pos_pitch : double;
  pos_on_ground : bool
}.

(** What the host reads from its surroundings at the moment of a call. *)
Record World : Type := mkWorld {
  (** [m_url.userName()] *)
  m_url_userName : string;
  m_main_script_filename : string;
  (** the string [internalReadFile] returns for a path; [None] for the
      null string, which it returns where the file cannot be opened *)
  readable : string -> option string;
  (** whether the file at a path can be opened for writing *)
  writable : string -> bool;
  (** [QFileInfo(main).dir().absoluteFilePath(name)] *)
  absoluteFilePath : string -> string -> string;
  (** the answers of [m_game] *)
  playerHealth : double;
  playerPosition : EntityPosition;
  itemStackHeight_of : Z -> Z
}.

(** What the host does to the game, the streams and the files, in the
    order it happens. *)
Inductive Action : Type :=
  | Game_sendChat (message : string)
  | Game_setControlActivated (control : Z) (state : bool)
  | stdout_text (text : string)
  | stdout_flush
  | stderr_text (text : string)
  | stderr_flush
  | QFile_open (path : string)
  | QFile_write (path : string) (bytes : list Ascii.ascii)
  | QFile_close (path : string)
  | invokeMethod_queued (member : string)
  | mf_setProperty (name : string) (value : QScriptValue)
  | connect (signal slot : string)
  | Game_start.

(** The host together with the log of its actions and with what the
    coming calls of [QFile::write] will return. *)
Record Runner : Type := mkRunner {
  host : Host;
  actions : list Action;
  write_results : list Z
}.

Definition with_host (h : Host) (r : Runner) : Runner :=
  mkRunner h (actions r) (write_results r).
Definition act (a : Action) (r : Runner) : Runner :=
  mkRunner (host r) (actions r ++ [a]) (write_results r).

(** What the natives below take from the engine and from Qt. *)
Record Engine : Type := mkEngine {
  base : Env;
  (** [m_engine->evaluate(program, fileName)], up to its return *)
  evaluate : string -> string -> Runner -> QScriptValue * Runner;
  (** [toString] on values that are no strings *)
  engine_toString : QScriptValue -> string;
  (** [tr(format).arg(text)] *)
  tr_arg_string : string -> string -> string
}.

(** ** QString operations used at start-up, on single-byte text *)

Definition isSpace (c : Ascii.ascii) : bool :=
  let n := Ascii.nat_of_ascii c in
  Nat.eqb n 32 || (Nat.leb 9 n && Nat.leb n 13).

Fixpoint trim_left (s : string) : string :=
  match s with
  | String c s' => if isSpace c then trim_left s' else s
  | EmptyString => EmptyString
  end.

Definition reversed (s : string) : string :=
  String.string_of_list_ascii (rev (String.list_ascii_of_string s)).

(** [QString::trimmed]. *)
Definition QString_trimmed (s : string) : string :=
  reversed (trim_left (reversed (trim_left s))).

(** [QString::split] on a one-character separator, empty parts kept. *)
Fixpoint QString_split (sep : Ascii.ascii) (s : string) : list string :=
  match s with
  | EmptyString => [EmptyString]
  | String c s' =>
      if Ascii.eqb c sep then EmptyString :: QString_split sep s'
      else
        match QString_split sep s' with
        | part :: parts => String c part :: parts
        | [] => [String c EmptyString]
        end
  end.

(** [QStringList::join]. *)
Definition QStringList_join (sep : string) (parts : list string) : string :=
  String.concat sep parts.

(** [QString::endsWith] and [QString::chop(1)]. *)
Fixpoint QString_endsWith (c : Ascii.ascii) (s : string) : bool :=
  match s with
  | EmptyString => false
  | String a EmptyString => Ascii.eqb a c
  | String _ s' => QString_endsWith c s'
  end.

Fixpoint QString_chop1 (s : string) : string :=
  match s with
  | EmptyString => EmptyString
  | String _ EmptyString => EmptyString
  | String a s' => String a (QString_chop1 s')
  end.

(** [QString::replace] of one character by another. *)
Fixpoint QString_replace (a b : Ascii.ascii) (s : string) : string :=
  match s with
  | EmptyString => EmptyString
  | String c s' => String (if Ascii.eqb c a then b else c) (QString_replace a b s')
  end.

Definition char_newline : Ascii.ascii := Ascii.ascii_of_nat 10.
Definition char_space : Ascii.ascii := Ascii.ascii_of_nat 32.
Definition char_semicolon : Ascii.ascii := Ascii.ascii_of_nat 59.
Definition char_equals : Ascii.ascii := Ascii.ascii_of_nat 61.
Definition char_colon : Ascii.ascii := Ascii.ascii_of_nat 58.

Section Natives.

Context (engine : Engine) (world : World).

Definition Native : Type := QScriptContext -> Runner -> option (QScriptValue * Runner).

(** A native of the host alone, as a native of the whole. *)
Definition lift (f : NativeFunction) : Native := fun context r =>
  match f context (host r) with
  | Some (v, h) => Some (v, with_host h r)
  | None => None
  end.

Definition toString (v : QScriptValue) : string :=
  match v with
  | VString s => s
  | _ => engine_toString engine v
  end.

(** [QScriptValue::toBool], ECMAScript ToBoolean. *)
Definition toBool (v : QScriptValue) : bool :=
  match v with
  | VBool b => b
  | VInvalid | VUndefined | VNull => false
  | VNumber (S754_zero _) | VNumber S754_nan => false
  | VString "" => false
  | _ => true
  end.

Definition internalReadFile (path : string) : option string := readable world path.

Definition argCount_r (context : QScriptContext) (error : QScriptValue)
    (arg_count_min arg_count_max : Z) (r : Runner) : bool * QScriptValue * Runner :=
  let '(ok, error, h) :=
    argCount (base engine) context error arg_count_min arg_count_max (host r) in
  (ok, error, with_host h r).

Definition maybeThrowArgumentError_r (context : QScriptContext)
    (error : QScriptValue) (arg_is_valid : bool) (r : Runner)
    : bool * QScriptValue * Runner :=
  let '(ok, error, h) :=
    maybeThrowArgumentError context error arg_is_valid (host r) in
  (ok, error, with_host h r).

Definition throwError_r (context : QScriptContext) (text : string) (r : Runner)
    : QScriptValue * Runner :=
  let '(error, h) := throwError context text (host r) in
  (error, with_host h r).

Definition readFile : Native := fun context r =>
  let error := VInvalid in
  let '(ok, error, r) := argCount_r context error 1 (-1) r in
  if negb ok then Some (error, r) else
  let path_value := argument context 0 in
  let '(ok, error, r) :=
    maybeThrowArgumentError_r context error (isString path_value) r in
  if negb ok then Some (error, r) else
  let path := toString path_value in
  match internalReadFile path with
  | None => Some (VInvalid, r)
  | Some contents => Some (VString contents, r)
  end.

(** The loop of [writeFile]: [contents] is the byte array, [index] the
    number of bytes written so far. Each turn takes the next answer of
    the device; an answer of [n] bytes means the first [n] bytes offered
    were taken. The result is whether the loop ended without error. *)
Fixpoint write_loop (path : string) (contents : list Ascii.ascii) (index : Z)
    (results : list Z) (log : list Action)
    : option (bool * list Z * list Action) :=
  if index <? Z.of_nat (length contents) then
    match results with
    | [] => None
    | written_size :: results =>
        if written_size =? -1 then
          Some (false, results, (log ++ [QFile_close path])%list)
        else
          let offered := drop (Z.to_nat index) contents in
          let taken := take (Z.to_nat written_size) offered in
          write_loop path contents (index + written_size) results
            (log ++ [QFile_write path taken])%list
    end
  else Some (true, results, (log ++ [QFile_close path])%list).

Definition writeFile : Native := fun context r =>
  let error := VInvalid in
  let '(ok, error, r) := argCount_r context error 2 (-1) r in
  if negb ok then Some (error, r) else
  let path_value := argument context 0 in
  let '(ok, error, r) :=
    maybeThrowArgumentError_r context error (isString path_value) r in
  if negb ok then Some (error, r) else
  let contents_value := argument context 1 in
  let '(ok, error, r) :=
    maybeThrowArgumentError_r context error (isString contents_value) r in
  if negb ok then Some (error, r) else
  let path := toString path_value in
  if negb (writable world path) then
    Some (throwError_r context
            (tr_arg_string engine "Unable to write file: %1" path) r)
  else
    let r := act (QFile_open path) r in
    let contents := String.list_ascii_of_string (toString contents_value) in
    match write_loop path contents 0 (write_results r) (actions r) with
    | None => None
    | Some (finished, results, log) =>
        let r := mkRunner (host r) log results in
        if finished then Some (VInvalid, r)
        else
          Some (throwError_r context
                  (tr_arg_string engine "Unable to write file: %1" path) r)
    end.

Definition include : Native := fun context r =>
  let error := VInvalid in
  let '(ok, error, r) := argCount_r context error 1 (-1) r in
  if negb ok then Some (error, r) else
  let file_name_value := argument context 0 in
  let '(ok, error, r) :=
    maybeThrowArgumentError_r context error (isString file_name_value) r in
  if negb ok then Some (error, r) else
  let file_name := toString file_name_value in
  let absolute_name :=
    absoluteFilePath world (m_main_script_filename world) file_name in
  match internalReadFile absolute_name with
  | None =>
      Some (throwError_r context
              (tr_arg_string engine "Connot open included file: %1" absolute_name) r)
  | Some contents =>
      let '(_, r) := evaluate engine contents file_name r in
      let r := with_host (checkEngine "evaluating included file" (host r)) r in
      Some (VInvalid, r)
  end.

Definition print : Native := fun context r =>
  let error := VInvalid in
  let '(ok, error, r) := argCount_r context error 1 (-1) r in
  if negb ok then Some (error, r) else
  let arg_value := argument context 0 in
  let '(ok, error, r) :=
    maybeThrowArgumentError_r context error (isString arg_value) r in
  if negb ok then Some (error, r) else
  let text := toString arg_value in
  let r := act (stdout_text text) r in
  let r := act stdout_flush r in
  Some (VInvalid, r).

Definition debug : Native := fun context r =>
  let error := VInvalid in
  let '(ok, error, r) := argCount_r context error 1 (-1) r in
  if negb ok then Some (error, r) else
  (* argument can be anything *)
  let line := toString (argument context 0) in
  let r := act (stderr_text line) r in
  let r := act (stderr_text newline) r in
  let r := act stderr_flush r in
  Some (VInvalid, r).

Definition chat : Native := fun context r =>
  let error := VInvalid in
  let '(ok, error, r) := argCount_r context error 1 (-1) r in
  if negb ok then Some (error, r) else
  let message_value := argument context 0 in
  let '(ok, error, r) :=
    maybeThrowArgumentError_r context error (isString message_value) r in
  if negb ok then Some (error, r) else
  let message := toString message_value in
  let r := act (Game_sendChat message) r in
  Some (VInvalid, r).

Definition username : Native := fun context r =>
  let error := VInvalid in
  let '(ok, error, r) := argCount_r context error 0 (-1) r in
  if negb ok then Some (error, r) else
  Some (VString (m_url_userName world), r).

Definition itemStackHeight : Native := fun context r =>
  let error := VInvalid in
  let '(ok, error, r) := argCount_r context error 1 (-1) r in
  if negb ok then Some (error, r) else
  let value := argument context 0 in
  let '(ok, error, r) :=
    maybeThrowArgumentError_r context error (isNumber value) r in
  if negb ok then Some (error, r) else
  match Double.to_int (toInteger (base engine) value) with
  | None => None
  | Some item_type =>
      Some (VNumber (Double.of_Z (itemStackHeight_of world item_type)), r)
  end.

Definition health : Native := fun context r =>
  let error := VInvalid in
  let '(ok, error, r) := argCount_r context error 0 (-1) r in
  if negb ok then Some (error, r) else
  Some (VNumber (playerHealth world), r).

Definition jsPoint_Int3D (pt : Int3D) : QScriptValue :=
  VObject [("x", VNumber (Double.of_Z (x pt)));
           ("y", VNumber (Double.of_Z (y pt)));
           ("z", VNumber (Double.of_Z (z pt)))].

Definition jsPoint (x y z : double) : QScriptValue :=
  VObject [("x", VNumber x); ("y", VNumber y); ("z", VNumber z)].

Definition playerState : Native := fun context r =>
  let error := VInvalid in
  let '(ok, error, r) := argCount_r context error 0 (-1) r in
  if negb ok then Some (error, r) else
  let position := playerPosition world in
  let result :=
    VObject [("position", jsPoint (pos_x position) (pos_y position) (pos_z position));
             ("velocity", jsPoint (pos_dx position) (pos_dy position) (pos_dz position));
             ("yaw", VNumber (pos_yaw position));
             ("pitch", VNumber (pos_pitch position));
             ("on_ground", VBool (pos_on_ground position))] in
  Some (result, r).

Definition setControlState : Native := fun context r =>
  let error := VInvalid in
  let '(ok, error, r) := argCount_r context error 2 (-1) r in
  if negb ok then Some (error, r) else
  let control := argument context 0 in
  let '(ok, error, r) :=
    maybeThrowArgumentError_r context error (isNumber control) r in
  if negb ok then Some (error, r) else
  let state := argument context 1 in
  let '(ok, error, r) :=
    maybeThrowArgumentError_r context error (isBool state) r in
  if negb ok then Some (error, r) else
  match Double.to_int (toInteger (base engine) control) with
  | None => None
  | Some control =>
      let r := act (Game_setControlActivated control (toBool state)) r in
      Some (VInvalid, r)
  end.

(** All the properties [go] sets on [mf], in the order of the source. *)
Definition mf_all : list (string * Native) :=
  [ ("include", include);
    ("exit", lift (exit (base engine)));
    ("print", print);
    ("debug", debug);
    ("setTimeout", lift (setTimeout (base engine)));
    ("clearTimeout", lift (clearTimeout (base engine)));
    ("setInterval", lift (setInterval (base engine)));
    ("clearInterval", lift (clearTimeout (base engine)));
    ("readFile", readFile);
    ("writeFile", writeFile);
    ("chat", chat);
    ("username", username);
    ("itemStackHeight", itemStackHeight);
    ("health", health);
    ("blockAt", lift (blockAt (base engine)));
    ("playerState", playerState);
    ("setControlState", setControlState);
    ("Point", lift (Point (base engine))) ].

Fixpoint mf_lookup (bindings : list (string * Native)) (name : string)
    : option Native :=
  match bindings with
  | [] => None
  | (k, f) :: rest => if String.eqb k name then Some f else mf_lookup rest name
  end.

(** A script calls [mf.name(arguments)]. *)
Definition call_native (name : string) (context : QScriptContext) (r : Runner)
    : option (QScriptValue * Runner) :=
  match mf_lookup mf_all name with
  | Some f => f context r
  | None => None
  end.

(** *** Event slots *)

Definition handleChunkUpdated (start size : Int3D) (h : Host)
    : option (Host * list Invocation) :=
  raiseEvent (base engine) "onChunkUpdated"
    [jsPoint_Int3D start; jsPoint_Int3D size] h.

Definition movePlayerPosition (h : Host) : option (Host * list Invocation) :=
  raiseEvent (base engine) "onPositionUpdated" [] h.

Definition handlePlayerHealthUpdated (h : Host) : option (Host * list Invocation) :=
  raiseEvent (base engine) "onHealthChanged" [] h.

Definition handlePlayerDied (h : Host) : option (Host * list Invocation) :=
  raiseEvent (base engine) "onDeath" [] h.

Definition handleChatReceived (username message : string) (h : Host)
    : option (Host * list Invocation) :=
  raiseEvent (base engine) "onChat" [VString username; VString message] h.

(** *** Start-up *)

Definition evalJsonContents (file_contents file_name : string) (r : Runner)
    : QScriptValue * Runner :=
  let '(value, r) :=
    evaluate engine (String.append "(" (String.append file_contents ")")) file_name r in
  (value, with_host (checkEngine "evaluating json" (host r)) r).

(** The properties of an object, as the handler map is read. *)
Definition properties_of (v : QScriptValue) : gmap string QScriptValue :=
  match v with
  | VObject ps => list_to_map ps
  | _ => ∅
  end.

(** The seven connections [go] makes once the main script has run. *)
Definition connections : list (string * string) :=
  [ ("chunkUpdated(Int3D,Int3D)", "handleChunkUpdated(Int3D,Int3D)");
    ("playerPositionUpdated()", "movePlayerPosition()");
    ("loginStatusUpdated(Server::LoginStatus)",
     "handleLoginStatusUpdated(Server::LoginStatus)");
    ("chatReceived(QString,QString)", "handleChatReceived(QString,QString)");
    ("playerDied()", "handlePlayerDied()");
    ("playerHealthUpdated()", "handlePlayerHealthUpdated()");
    ("timeout()", "doPhysics()") ].

Definition connect_all (r : Runner) : Runner :=
  fold_left (fun r c => act (connect (fst c) (snd c)) r) connections r.

(** [go]. [on_own_thread] is whether the caller runs on [m_thread]. A
    null string read from a resource counts as the empty string where it
    is concatenated or trimmed. *)
Definition go (on_own_thread : bool) (r : Runner) : option Runner :=
  if negb on_own_thread then Some (act (invokeMethod_queued "go") r)
  else
    (* init event handler framework *)
    let file_name := ":/js/create_handlers.js" in
    let '(value, r) :=
      evalJsonContents (default "" (internalReadFile file_name)) file_name r in
    let r := with_host (with_m_handler_map (properties_of value) (host r)) r in
    (* create JavaScript enums from C++ enums *)
    let enum_contents :=
      QString_trimmed (default "" (internalReadFile ":/enums/ItemTypeEnum.h")) in
    let lines := QString_split char_newline enum_contents in
    let values := QString_split char_space (hd "" lines) in
    let lines := tl lines in
    Q_ASSERT (base engine) (Nat.eqb (length values) 2)
      (match nth_error values 1 with
       | None => None
       | Some prop_name =>
           Q_ASSERT (base engine) (String.eqb (nth 0 values "") "enum")
             (let enum_contents := QStringList_join newline lines in
              Q_ASSERT (base engine) (QString_endsWith char_semicolon enum_contents)
                (let enum_contents := QString_chop1 enum_contents in
                 let '(value, r) :=
                   evalJsonContents
                     (QString_replace char_equals char_colon enum_contents) "" r in
                 let r := act (mf_setProperty prop_name value) r in
                 (* the utility and mf functions are those of [mf_all] *)
                 match internalReadFile (m_main_script_filename world) with
                 | None =>
                     let h :=
                       emit (qWarning
                               (String.append "file not found: "
                                  (m_main_script_filename world))) (host r) in
                     Some (with_host (shutdown 1 h) r)
                 | Some main_script_contents =>
                     let '(_, r) :=
                       evaluate engine main_script_contents
                         (m_main_script_filename world) r in
                     let r :=
                       with_host (checkEngine "evaluating main script" (host r)) r in
                     if m_exiting (host r) then Some r
                     else
                       (* connect to server *)
                       let r := connect_all r in
                       let r := with_host (with_m_started_game true (host r)) r in
                       Some (act Game_start r)
                 end))
       end).

End Natives.

(** ** Errors of the natives *)

Definition is_file_action (a : Action) : bool :=
  match a with
  | QFile_open _ | QFile_write _ _ | QFile_close _ => true
  | _ => false
  end.

(** The error left pending by [throwError], on the host of a runner. *)
Definition thrown (context : QScriptContext) (message : string) (h : Host) : Host :=
  with_exception (Some (String.append "Error: " message)) (backtrace context) h.

(** A runner that differs from another by a pending error and by file
    actions at most. *)
Definition only_threw (context : QScriptContext) (message : string)
    (files_too : bool) (r r' : Runner) : Prop :=
  host r' = thrown context message (host r)
  /\ exists more,
       actions r' = (actions r ++ more)%list
       /\ Forall (fun a => is_file_action a = true) more
       /\ (files_too = false -> more = []).

(** ** Checks and files *)

(** The engine holds no error that the host has yet to answer: the host
    is shutting down, or no exception is pending. *)
Definition engine_checked (h : Host) : Prop :=
  m_exiting h = true \/ uncaughtException h = None.

(** The log of a file written in chunks. *)
Definition file_written (path : string) (chunks : list (list Ascii.ascii))
    : list Action :=
  (map (QFile_write path) chunks ++ [QFile_close path])%list.

(** ** Examples for the rest of the host *)

(** [setTimeout(second, 100)] and [setInterval(second, 100)]. *)
Definition schedule_second_100 : QScriptContext :=
  mkContext [VFunction "second"; VNumber (Double.of_Z 100)] (VString "receiver") [].

(** After a second scheduling call on [one_shot_host]: timers 0 and 1 at
    addresses 1 and 2. *)
Definition two_timers_host : Host :=
  scheduled (VFunction "second") 100 (VString "receiver") false one_shot_host.

(** A chat array with an entry that is no function. *)
Definition mixed_host : Host :=
  with_handlers "onChat" [VFunction "second"; VString "second"]
    (running flat_world).

(** An engine whose programs are [throw 1], which leaves an exception
    pending, and everything else, which does nothing. *)
Definition example_engine : Engine :=
  mkEngine (native_env false)
    (fun program _ r =>
       if String.eqb program "throw 1" then
         (VError "1", with_host (with_exception (Some "Error: 1") [] (host r)) r)
       else (VUndefined, r))
    (fun _ => "")
    (fun format text => String.append format text).

(** A bot whose main script is empty, with one library next to it that
    throws, and the enum resource of one empty enum. *)
Definition example_world : World :=
  mkWorld "bot" "/bot/main.js"
    (fun path =>
       if String.eqb path "/bot/main.js" then Some ""
       else if String.eqb path "/bot/lib.js" then Some "throw 1"
       else if String.eqb path ":/enums/ItemTypeEnum.h" then
         Some (String.append "enum ItemType" (String char_newline "{};"))
       else None)
    (fun path => String.eqb path "out.txt")
    (fun _ name => String.append "/bot/" name)
    (Double.of_Z 20)
    (mkEntityPosition Double.zero Double.zero Double.zero
       Double.zero Double.zero Double.zero Double.zero Double.zero true)
    (fun _ => 64).

(** A fresh host whose file device will take two bytes, then three. *)
Definition fresh_runner : Runner := mkRunner (constructed flat_world) [] [2; 3].

(** [writeFile("out.txt", "hello")], [readFile("none.js")] and
    [include("lib.js")]; [chat()] lacks its argument. *)
Definition write_hello : QScriptContext :=
  mkContext [VString "out.txt"; VString "hello"] VUndefined [].
Definition read_none : QScriptContext :=
  mkContext [VString "none.js"] VUndefined [].
Definition include_lib : QScriptContext :=
  mkContext [VString "lib.js"] VUndefined [].
Definition chat_nothing : QScriptContext := mkContext [] VUndefined [].

(** * Properties *)

(** ** Event dispatch *)

Section Dispatcher.

Context (env : Env).

Lemma Q_ASSERT_holds {A : Type} (k : option A) : Q_ASSERT env true k = k.
Proof. unfold Q_ASSERT. by destruct (QT_NO_DEBUG env). Qed.

Lemma Q_ASSERT_compiled_out {A : Type} (cond : bool) (k : option A) :
  QT_NO_DEBUG env = true -> Q_ASSERT env cond k = k.
Proof. unfold Q_ASSERT. by intros ->. Qed.

Lemma functions_of_invocations args hs :
  map inv_function (handler_invocations args hs) = hs.
Proof.
  unfold handler_invocations. induction hs as [|f hs IH]; simpl; [done|].
  by rewrite IH.
Qed.

(** The loop goes through the whole copied list, whatever the handlers
    and the checks in between do to the host. *)
Lemma call_handlers_functions hs : forall event_name args h,
  Forall (fun f => isFunction f = true) hs ->
  exists h', call_handlers env event_name args hs h
             = Some (h', handler_invocations args hs).
Proof.
  induction hs as [|f hs IH]; intros event_name args h Hfun; simpl.
  - by exists h.
  - inversion Hfun as [|? ? Hf Hrest]; subst.
    rewrite Hf, Q_ASSERT_holds.
    destruct f; try discriminate. simpl.
    destruct (IH event_name args
                (checkEngine ("calling event handler" +:+ event_name)
                   (script_call env name VInvalid args h)) Hrest) as [h' ->].
    by exists h'.
Qed.

(** An uncaught error met by the check on a host that is not yet exiting
    shuts the host down with code 1. *)
Lemma checkEngine_shuts_down what h e :
  m_exiting h = false ->
  uncaughtException h = Some e ->
  exists h0,
    checkEngine what h = shutdown 1 h0
    /\ m_started_game h0 = m_started_game h
    /\ m_exiting (checkEngine what h) = true.
Proof.
  intros Hrunning Herror. unfold checkEngine. rewrite Hrunning, Herror.
  eexists. split; [reflexivity|]. split.
  - destruct (negb (e =? "Error: SystemExit")%string); [|done].
    by destruct (negb (what =? "")%string).
  - unfold shutdown. simpl.
    destruct (negb (e =? "Error: SystemExit")%string);
      [destruct (negb (what =? "")%string)|]; simpl;
      by destruct (m_started_game h).
Qed.

(** One turn of the loop: the handler is called, the engine is checked,
    and the loop goes on with the rest of the list on the host the check
    returned, whether or not that host is exiting by now. *)
Lemma call_handlers_step event_name args name rest h :
  call_handlers env event_name args (VFunction name :: rest) h
  = match call_handlers env event_name args rest
            (checkEngine ("calling event handler" +:+ event_name)
               (script_call env name VInvalid args h)) with
    | Some (h', called_later) =>
        Some (h', mkInvocation (VFunction name) VInvalid args :: called_later)
    | None => None
    end.
Proof. simpl. by rewrite Q_ASSERT_holds. Qed.

Lemma snapshot_copy (l : list QScriptValue) :
  map (property_at (VArray l)) (seq 0 (length l)) = l.
Proof.
  simpl. induction l as [|a l IH]; simpl; [done|].
  f_equal. by rewrite <- seq_shift, map_map.
Qed.

Lemma length_toInt32_array (l : list QScriptValue) :
  Z.of_nat (length l) < 2 ^ 31 ->
  length_toInt32 (VArray l) = Z.of_nat (length l).
Proof.
  intros Hlen. unfold length_toInt32.
  rewrite Z.mod_small by lia.
  destruct (Z.ltb_spec (Z.of_nat (length l)) (2 ^ 31)); lia.
Qed.

Lemma raiseEvent_array event_name args h hs :
  m_handler_map h !! event_name = Some (VArray hs) ->
  Z.of_nat (length hs) < 2 ^ 31 ->
  raiseEvent env event_name args h
  = match hs with
    | [] => Some (h, [])
    | _ => call_handlers env event_name args hs h
    end.
Proof.
  intros Hmap Hlen. unfold raiseEvent. rewrite Hmap. simpl default.
  simpl isArray. rewrite Q_ASSERT_holds, length_toInt32_array by done.
  destruct hs as [|f hs]; [done|].
  replace (Z.of_nat (length (f :: hs)) =? 0) with false
    by (symmetry; apply Z.eqb_neq; simpl length; lia).
  by rewrite Nat2Z.id, snapshot_copy.
Qed.

Lemma raiseEvent_functions event_name args h hs :
  m_handler_map h !! event_name = Some (VArray hs) ->
  Forall (fun f => isFunction f = true) hs ->
  Z.of_nat (length hs) < 2 ^ 31 ->
  exists h', raiseEvent env event_name args h
             = Some (h', handler_invocations args hs).
Proof.
  intros Hmap Hfun Hlen. rewrite (raiseEvent_array _ _ _ hs) by done.
  destruct hs as [|f hs]; [by exists h|].
  by apply call_handlers_functions.
Qed.

(** The check after a handler leaves the handler arrays alone. *)
Lemma checkEngine_handler_map what h :
  m_handler_map (checkEngine what h) = m_handler_map h.
Proof.
  unfold checkEngine, shutdown. destruct (m_exiting h); [done|].
  destruct (uncaughtException h) as [e|]; [|done].
  destruct (negb (String.eqb e "Error: SystemExit"));
    [destruct (negb (String.eqb what ""))|]; simpl;
    by destruct (m_started_game h).
Qed.

(** The loop over a snapshot of functions returns the host that the
    handlers and the checks leave, and has called the snapshot. *)
Lemma call_handlers_after hs : forall event_name args h,
  Forall (fun f => isFunction f = true) hs ->
  call_handlers env event_name args hs h
  = Some (after_handlers env event_name args hs h, handler_invocations args hs).
Proof.
  induction hs as [|f hs IH]; intros event_name args h Hfun; simpl; [done|].
  inversion Hfun as [|? ? Hf Hrest]; subst.
  rewrite Hf, Q_ASSERT_holds.
  destruct f; try discriminate. simpl.
  by rewrite (IH event_name args _ Hrest).
Qed.

Lemma raiseEvent_after event_name args h hs :
  m_handler_map h !! event_name = Some (VArray hs) ->
  Forall (fun f => isFunction f = true) hs ->
  Z.of_nat (length hs) < 2 ^ 31 ->
  raiseEvent env event_name args h
  = Some (after_handlers env event_name args hs h, handler_invocations args hs).
Proof.
  intros Hmap Hfun Hlen. rewrite (raiseEvent_array _ _ _ hs) by done.
  destruct hs as [|f hs]; [done|].
  by apply call_handlers_after.
Qed.

(** What the handlers of a snapshot do to the handler arrays, one after
    the other, is what the arrays are when the dispatch returns. *)
Lemma after_handlers_edits event_name args
    (edit : QScriptValue -> gmap string QScriptValue -> gmap string QScriptValue)
    hs : forall h,
  (forall f h0, f ∈ hs ->
     m_handler_map (fst (QScriptValue_call env f VInvalid args h0))
     = edit f (m_handler_map h0)) ->
  m_handler_map (after_handlers env event_name args hs h)
  = foldl (fun m f => edit f m) (m_handler_map h) hs.
Proof.
  induction hs as [|f hs IH]; intros h Hedit; simpl; [done|].
  rewrite IH.
  - by rewrite checkEngine_handler_map, Hedit by apply list_elem_of_here.
  - intros g h0 Hin. apply Hedit. by apply list_elem_of_further.
Qed.

(** C2. A dispatch calls exactly the handlers that were registered for
    the event when it started, once each and in registration order,
    whatever the handlers do to the handler arrays meanwhile, and it
    returns the host that these calls, each followed by the check, have
    left. The dispatch itself edits no array: whatever each handler does
    to the arrays, the arrays the dispatch returns are these edits, made
    one after the other. The next dispatch of the event reads the array
    from that host, so it calls the handlers registered by then. So a
    handler that took itself off the list during the first dispatch was
    called in it and is not called in the next. *)
Theorem raiseEvent_invokes_snapshot_in_order event_name args args' h hs :
  m_handler_map h !! event_name = Some (VArray hs) ->
  Forall (fun f => isFunction f = true) hs ->
  Z.of_nat (length hs) < 2 ^ 31 ->
  let h1 := after_handlers env event_name args hs h in
  raiseEvent env event_name args h = Some (h1, handler_invocations args hs)
  /\ (forall edit : QScriptValue -> gmap string QScriptValue
                      -> gmap string QScriptValue,
        (forall f h0, f ∈ hs ->
           m_handler_map (fst (QScriptValue_call env f VInvalid args h0))
           = edit f (m_handler_map h0)) ->
        m_handler_map h1 = foldl (fun m f => edit f m) (m_handler_map h) hs)
  /\ forall hs1,
       m_handler_map h1 !! event_name = Some (VArray hs1) ->
       Forall (fun f => isFunction f = true) hs1 ->
       Z.of_nat (length hs1) < 2 ^ 31 ->
       raiseEvent env event_name args' h1
       = Some (after_handlers env event_name args' hs1 h1,
               handler_invocations args' hs1)
       /\ forall f, f ∈ hs -> f ∉ hs1 ->
            f ∈ map inv_function (handler_invocations args hs)
            /\ f ∉ map inv_function (handler_invocations args' hs1).
Proof.
  intros Hmap Hfun Hlen h1.
  split; [by apply raiseEvent_after|].
  split; [intros edit Hedit; by apply after_handlers_edits|].
  intros hs1 Hmap1 Hfun1 Hlen1.
  split; [by apply raiseEvent_after|].
  intros f Hin Hout. by rewrite !functions_of_invocations.
Qed.

(** C6, as the code has it. An event whose handler array is empty is
    dispatched to nobody and the host is left as it was. A name that
    the handler map does not have gets the same treatment only where
    assertions are compiled out: the dispatcher asserts that what it
    looked up is an array. *)
Theorem raiseEvent_without_handlers event_name args h :
  m_handler_map h !! event_name = Some (VArray [])
  \/ (m_handler_map h !! event_name = None /\ QT_NO_DEBUG env = true) ->
  raiseEvent env event_name args h = Some (h, []).
Proof.
  intros [Hempty | [Habsent Hrelease]]; unfold raiseEvent.
  - rewrite Hempty. simpl. by rewrite Q_ASSERT_holds.
  - rewrite Habsent. simpl. by rewrite Q_ASSERT_compiled_out.
Qed.

End Dispatcher.

(** What the handlers of [once_program] do to the handler arrays. *)
Lemma once_program_edits f h0 :
  f ∈ [VFunction "once"; VFunction "always"] ->
  m_handler_map
    (fst (QScriptValue_call (script_env once_program false) f VInvalid
            chat_args h0))
  = once_edit f (m_handler_map h0).
Proof.
  intros Hin. apply elem_of_cons in Hin as [-> | Hin];
    [|apply elem_of_cons in Hin as [-> | Hin]; [|by apply elem_of_nil in Hin]].
  - unfold once_edit. simpl. unfold interp. simpl. unfold edit_handlers. simpl.
    destruct (m_handler_map h0 !! "onChat") as [[]|] eqn:Hchat; simpl;
      rewrite ?Hchat; simpl; try by destruct (uncaughtException h0).
    rewrite lookup_insert_eq. simpl. rewrite insert_insert_eq.
    by destruct (uncaughtException h0).
  - unfold once_edit. simpl. unfold interp. simpl.
    by destruct (uncaughtException h0).
Qed.

(** C2 at a concrete dispatch: two chat handlers, the first of which
    removes itself while it runs and registers a third. The first
    dispatch calls the two, the arrays it returns are the edits of the
    two, and the next dispatch calls the second and the third. *)
Lemma raiseEvent_invokes_snapshot_in_order_witness :
  exists h1,
    raiseEvent (script_env once_program false) "onChat" chat_args once_host
    = Some (h1, handler_invocations chat_args [VFunction "once"; VFunction "always"])
    /\ m_handler_map h1
       = once_edit (VFunction "always")
           (once_edit (VFunction "once") (m_handler_map once_host))
    /\ m_handler_map h1 !! "onChat"
       = Some (VArray [VFunction "always"; VFunction "late"])
    /\ exists h2,
         raiseEvent (script_env once_program false) "onChat" [] h1
         = Some (h2, handler_invocations [] [VFunction "always"; VFunction "late"])
         /\ VFunction "once"
            ∉ map inv_function
                (handler_invocations [] [VFunction "always"; VFunction "late"]).
Proof.
  destruct (raiseEvent_invokes_snapshot_in_order (script_env once_program false)
              "onChat" chat_args [] once_host
              [VFunction "once"; VFunction "always"])
    as (Hfirst & Hedits & Hnext).
  - reflexivity.
  - repeat constructor.
  - reflexivity.
  - eexists. split; [exact Hfirst|].
    split; [exact (Hedits once_edit once_program_edits)|].
    split; [reflexivity|].
    destruct (Hnext [VFunction "always"; VFunction "late"])
      as [Hsecond Hgone].
    + reflexivity.
    + repeat constructor.
    + reflexivity.
    + eexists. split; [exact Hsecond|].
      apply (Hgone (VFunction "once")).
      * apply list_elem_of_here.
      * intros Hin. repeat (apply elem_of_cons in Hin as [Heq | Hin];
                            [discriminate Heq|]).
        by apply elem_of_nil in Hin.
Defined.

(** The self-removing handler, run: it is called in the dispatch during
    which it removes itself, and not in the one after; the handler it
    registered meanwhile is called from the next dispatch on. *)
Example once_handler_runs_once :
  match raiseEvent (script_env once_program false) "onChat" chat_args once_host with
  | Some (h1, called) =>
      map inv_function called = [VFunction "once"; VFunction "always"]
      /\ m_handler_map h1 !! "onChat"
         = Some (VArray [VFunction "always"; VFunction "late"])
      /\ match raiseEvent (script_env once_program false) "onChat" chat_args h1 with
         | Some (_, called_next) =>
             map inv_function called_next = [VFunction "always"; VFunction "late"]
         | None => False
         end
  | None => False
  end.
Proof. vm_compute. repeat split. Qed.

(** C6 at concrete inputs: an empty handler array in a build with
    assertions, and an unknown name in a build without. *)
Lemma raiseEvent_without_handlers_witness :
  raiseEvent (script_env [] false) "onChat" chat_args
    (with_handlers "onChat" [] (running flat_world))
  = Some (with_handlers "onChat" [] (running flat_world), [])
  /\ raiseEvent (script_env [] true) "onCustom" [] (running flat_world)
     = Some (running flat_world, []).
Proof.
  split.
  - apply (raiseEvent_without_handlers (script_env [] false)). left. reflexivity.
  - apply (raiseEvent_without_handlers (script_env [] true)). right.
    split; reflexivity.
Defined.

(** C6 as stated fails where assertions are on: for a name the handler
    map does not have, the dispatch stops at the assertion instead of
    returning. *)
Lemma raiseEvent_unknown_name_asserts :
  m_handler_map (running flat_world) !! "onCustom" = None
  /\ raiseEvent (script_env [] false) "onCustom" [] (running flat_world) = None
  /\ raiseEvent (script_env [] false) "onCustom" [] (running flat_world)
     <> Some (running flat_world, []).
Proof.
  split; [reflexivity|]. split; [reflexivity|].
  intros H. vm_compute in H. discriminate H.
Qed.

(** C1 on the code: two chat handlers, the first throws. The check after
    the first handler puts the host into shutdown with code 1, and the
    loop still calls the second handler. *)
Theorem raiseEvent_continues_after_uncaught_error :
  let env := script_env throwing_program false in
  let after_first :=
    checkEngine "calling event handleronChat"
      (script_call env "thrower" VInvalid chat_args throwing_host) in
  uncaughtException (script_call env "thrower" VInvalid chat_args throwing_host)
  = Some "Error: boom"
  /\ m_exiting after_first = true
  /\ effects after_first
     = [qWarning "Error while calling event handleronChat";
        qWarning "Error: boom"; qWarning "<script>";
        QThread_exit 1; Game_shutdown 1]
  /\ match raiseEvent env "onChat" chat_args throwing_host with
     | Some (h1, called) =>
         called = handler_invocations chat_args
                    [VFunction "thrower"; VFunction "second"]
         /\ m_exiting h1 = true
     | None => False
     end.
Proof. vm_compute. repeat split. Qed.

(** ** Timers *)

Section Timers.

Context (env : Env).

Lemma with_m_timer_ptrs_same h : with_m_timer_ptrs (m_timer_ptrs h) h = h.
Proof. by destruct h. Qed.

Lemma with_m_script_timers_same h :
  with_m_script_timers (m_script_timers h) h = h.
Proof. by destruct h. Qed.

Lemma with_qtimers_same h : with_qtimers (qtimers h) (next_address h) h = h.
Proof. by destruct h. Qed.

Lemma constructed_registry_ok world : registry_ok (constructed world).
Proof. unfold registry_ok, NULL. simpl. repeat split. Qed.

Lemma running_registry_ok world : registry_ok (running world).
Proof. unfold registry_ok, NULL. simpl. repeat split. Qed.

(** Scheduling keeps the registry well formed and records the entry
    under a fresh id and a fresh address. *)
Lemma ScriptRunner_setTimeout_registry_ok func ms this_obj repeat h id h' :
  registry_ok h ->
  ScriptRunner_setTimeout func ms this_obj repeat h = Some (id, h') ->
  registry_ok h'.
Proof.
  unfold registry_ok, NULL, ScriptRunner_setTimeout, nextTimerId.
  intros (Hpos & Htimers & Hheap). cbn [m_timer_count with_qtimers].
  destruct (m_timer_count h <? Double.INT_MAX); [|done].
  intros [= _ <-]. simpl.
  repeat split; [lia| |].
  - rewrite lookup_insert_ne by lia. exact Htimers.
  - rewrite !lookup_insert_ne by lia. exact Hheap.
Qed.

Lemma scheduled_registry_ok func ms this_obj repeat h :
  registry_ok h -> registry_ok (scheduled func ms this_obj repeat h).
Proof.
  intros Hok. unfold scheduled.
  destruct (ScriptRunner_setTimeout func ms this_obj repeat h)
    as [[id h']|] eqn:Hcall; [|done].
  by apply (ScriptRunner_setTimeout_registry_ok _ _ _ _ _ _ _ Hok Hcall).
Qed.

Lemma ScriptRunner_setTimeout_records func ms this_obj repeat h :
  m_timer_count h < Double.INT_MAX ->
  let timer_id := m_timer_count h in
  let new_timer := next_address h in
  exists h',
    ScriptRunner_setTimeout func ms this_obj repeat h = Some (timer_id, h')
    /\ m_timer_ptrs h' !! timer_id = Some new_timer
    /\ m_script_timers h' !! new_timer
       = Some (mkTimedFunction timer_id repeat this_obj func)
    /\ qtimers h' !! new_timer = Some (mkQTimer ms true).
Proof.
  intros Hbelow. unfold ScriptRunner_setTimeout, nextTimerId.
  cbn [m_timer_count with_qtimers].
  replace (m_timer_count h <? Double.INT_MAX) with true
    by (symmetry; by apply Z.ltb_lt).
  eexists. split; [reflexivity|]. simpl. by rewrite !lookup_insert_eq.
Qed.

(** At [INT_MAX] the counter cannot be advanced: scheduling has no
    defined result. *)
Lemma ScriptRunner_setTimeout_overflow func ms this_obj repeat h :
  Double.INT_MAX <= m_timer_count h ->
  ScriptRunner_setTimeout func ms this_obj repeat h = None.
Proof.
  intros Hfull. unfold ScriptRunner_setTimeout, nextTimerId.
  cbn [m_timer_count with_qtimers].
  by replace (m_timer_count h <? Double.INT_MAX) with false
    by (symmetry; by apply Z.ltb_ge).
Qed.

(** C3. When a timer fires, its callback is called with the receiver
    recorded for it and no arguments. For a one-shot entry the host the
    callback starts from has neither the id nor the timer in the
    registry, and the timer object is gone, so it can fire no more; for
    a repeating entry the callback starts from the host as it was, the
    entry still registered. *)
Theorem dispatchTimeout_removes_one_shot_before_call timer h tf name :
  registry_ok h ->
  m_script_timers h !! timer = Some tf ->
  tf_function tf = VFunction name ->
  exists h',
    dispatchTimeout env timer h
    = (script_call env name (tf_this_ref tf) [] h',
       [mkInvocation (VFunction name) (tf_this_ref tf) []])
    /\ (tf_repeat tf = false ->
          m_timer_ptrs h' !! tf_id tf = None
          /\ m_script_timers h' !! timer = None
          /\ qtimers h' !! timer = None
          /\ QTimer_timeout env timer h' = None)
    /\ (tf_repeat tf = true ->
          h' = h /\ m_script_timers h' !! timer = Some tf).
Proof.
  intros (_ & Hnull & _) Hentry Hfun.
  assert (timer <> NULL) as Hptr by (intros ->; congruence).
  unfold dispatchTimeout. rewrite Hentry. simpl default. rewrite Hfun.
  destruct (tf_repeat tf) eqn:Hrepeat; simpl negb; cbv iota.
  - exists h. split; [done|]. split; [done|]. by intros _.
  - eexists. split; [reflexivity|]. split; [|done]. intros _.
    unfold delete_QTimer, QTimer_timeout.
    apply Z.eqb_neq in Hptr. rewrite Hptr. simpl.
    by rewrite !lookup_delete_eq.
Qed.

(** Cancelling with a second argument. A cancel call that passes
    validation, for id [int_id]: if the registry has no timer of that id
    (never had, or the one-shot timer of that id has fired), nothing
    changes and nothing is thrown; if it has one, the id and the timer
    leave the registry and the timer object is deleted, so it is
    stopped. *)
Theorem clearTimeout_cancels_by_id context h id extra int_id :
  registry_ok h ->
  arguments context = [VNumber id; extra] ->
  Double.to_int (Double.ToInteger id) = Some int_id ->
  (m_timer_ptrs h !! int_id = None ->
     clearTimeout env context h = Some (VInvalid, h))
  /\ (forall timer, m_timer_ptrs h !! int_id = Some timer ->
        exists h',
          clearTimeout env context h = Some (VInvalid, h')
          /\ m_timer_ptrs h' !! int_id = None
          /\ m_script_timers h' !! timer = None
          /\ qtimers h' !! timer = None
          /\ QTimer_timeout env timer h' = None
          /\ uncaughtException h' = uncaughtException h).
Proof.
  intros (_ & Hnull & Hheap) Hargs Hid.
  assert (clearTimeout env context h
          = let ptr := default NULL (m_timer_ptrs h !! int_id) in
            Some (VInvalid,
                  delete_QTimer ptr
                    (with_m_script_timers
                       (delete ptr (m_script_timers h))
                       (with_m_timer_ptrs (delete int_id (m_timer_ptrs h)) h))))
    as Hrun.
  { unfold clearTimeout, argCount, maybeThrowArgumentError, argumentCount,
      argument, toInteger. rewrite Hargs. simpl. by rewrite Hid. }
  rewrite Hrun. clear Hrun. split.
  - intros Hunknown. rewrite Hunknown. simpl.
    rewrite (delete_id _ _ Hunknown), with_m_timer_ptrs_same.
    rewrite (delete_id _ _ Hnull), with_m_script_timers_same.
    reflexivity.
  - intros timer Hlive. rewrite Hlive. simpl. eexists. split; [reflexivity|].
    unfold delete_QTimer, QTimer_timeout.
    destruct (timer =? NULL) eqn:Hptr; simpl.
    + apply Z.eqb_eq in Hptr. subst timer.
      rewrite !lookup_delete_eq, Hheap. done.
    + by rewrite !lookup_delete_eq.
Qed.

(** C10. With any number of arguments other than two, clearTimeout and
    clearInterval throw the argument-count error and leave the timer
    registry and the timer objects as they were. *)
Theorem clearTimeout_requires_two_arguments name context h :
  name = "clearTimeout" \/ name = "clearInterval" ->
  length (arguments context) <> 2%nat ->
  let message :=
    tr_arg env "Expected %1 arguments. Received %2" [2; argumentCount context] in
  exists h',
    call_mf env name context h = Some (VError message, h')
    /\ uncaughtException h' = Some (String.append "Error: " message)
    /\ m_timer_ptrs h' = m_timer_ptrs h
    /\ m_script_timers h' = m_script_timers h
    /\ qtimers h' = qtimers h.
Proof.
  intros Hname Hcount message.
  assert (call_mf env name context h = clearTimeout env context h) as ->
    by (destruct Hname as [-> | ->]; reflexivity).
  assert ((2 <=? argumentCount context) && (argumentCount context <=? 2)
          = false) as Hbad.
  { apply andb_false_iff. unfold argumentCount.
    destruct (Z.leb_spec 2 (Z.of_nat (length (arguments context))));
      [right; apply Z.leb_gt; lia | by left]. }
  unfold clearTimeout, argCount. simpl. rewrite Hbad. simpl.
  eexists. split; [reflexivity|]. done.
Qed.

(** C9. [go] installs one and the same native function under the names
    clearTimeout and clearInterval, so a call through either name gives
    the result of a call through the other, for all arguments and all
    hosts; the repeat flag of the entry is never looked at. *)
Theorem clearInterval_is_clearTimeout :
  mf_property (mf_obj env) "clearInterval" = Some (clearTimeout env)
  /\ mf_property (mf_obj env) "clearTimeout" = Some (clearTimeout env)
  /\ forall context h,
       call_mf env "clearInterval" context h = call_mf env "clearTimeout" context h.
Proof. repeat split. Qed.

End Timers.

(** C3 at a concrete firing: the one-shot timer of [one_shot_host]. *)
Lemma dispatchTimeout_removes_one_shot_before_call_witness :
  exists h',
    dispatchTimeout (script_env throwing_program false) 1 one_shot_host
    = (script_call (script_env throwing_program false) "thrower"
         (VString "receiver") [] h',
       [mkInvocation (VFunction "thrower") (VString "receiver") []])
    /\ (false = false ->
          m_timer_ptrs h' !! 0 = None
          /\ m_script_timers h' !! 1 = None
          /\ qtimers h' !! 1 = None
          /\ QTimer_timeout (script_env throwing_program false) 1 h' = None)
    /\ (false = true ->
          h' = one_shot_host
          /\ m_script_timers h' !! 1
             = Some (mkTimedFunction 0 false (VString "receiver") (VFunction "thrower"))).
Proof.
  apply (dispatchTimeout_removes_one_shot_before_call
           (script_env throwing_program false) 1 one_shot_host
           (mkTimedFunction 0 false (VString "receiver") (VFunction "thrower"))
           "thrower").
  - apply scheduled_registry_ok, running_registry_ok.
  - reflexivity.
  - reflexivity.
Defined.

(** A repeating timer stays registered and alive across its firing. *)
Example repeating_timer_stays_registered :
  let fired := fst (dispatchTimeout (script_env throwing_program false) 1 repeating_host) in
  snd (dispatchTimeout (script_env throwing_program false) 1 repeating_host)
  = [mkInvocation (VFunction "second") (VString "receiver") []]
  /\ m_timer_ptrs fired !! 0 = Some 1
  /\ m_script_timers fired !! 1
     = Some (mkTimedFunction 0 true (VString "receiver") (VFunction "second"))
  /\ qtimers fired !! 1 = Some (mkQTimer 100 true).
Proof. vm_compute. repeat split. Qed.

(** C4 on the code: the callback of a one-shot timer throws. The error
    stays pending in the engine, the host is not exiting and nothing was
    signalled; [checkEngine], had it been called here as it is after a
    handler, would have shut the host down. *)
Theorem dispatchTimeout_leaves_error_unchecked :
  let env := script_env throwing_program false in
  let fired := fst (dispatchTimeout env 1 one_shot_host) in
  snd (dispatchTimeout env 1 one_shot_host)
  = [mkInvocation (VFunction "thrower") (VString "receiver") []]
  /\ uncaughtException fired = Some "Error: boom"
  /\ m_exiting fired = false
  /\ effects fired = []
  /\ m_exiting (checkEngine "dispatching timeout" fired) = true.
Proof. vm_compute. repeat split. Qed.

(** Cancelling with a second argument, at concrete calls: timer 0 after
    its one-shot timer has fired, and timer 0 while it is pending. *)
Lemma clearTimeout_cancels_by_id_witness :
  clearTimeout (native_env false) clear_0_two_arguments fired_host
  = Some (VInvalid, fired_host)
  /\ exists h',
       clearTimeout (native_env false) clear_0_two_arguments one_shot_host
       = Some (VInvalid, h')
       /\ m_timer_ptrs h' !! 0 = None
       /\ m_script_timers h' !! 1 = None
       /\ qtimers h' !! 1 = None
       /\ QTimer_timeout (native_env false) 1 h' = None
       /\ uncaughtException h' = uncaughtException one_shot_host.
Proof.
  split.
  - destruct (clearTimeout_cancels_by_id (native_env false)
                clear_0_two_arguments fired_host (Double.of_Z 0) VUndefined 0)
      as [Hunknown _].
    + repeat split.
    + reflexivity.
    + reflexivity.
    + apply Hunknown. reflexivity.
  - destruct (clearTimeout_cancels_by_id (native_env false)
                clear_0_two_arguments one_shot_host (Double.of_Z 0) VUndefined 0)
      as [_ Hlive].
    + apply scheduled_registry_ok, running_registry_ok.
    + reflexivity.
    + reflexivity.
    + apply (Hlive 1). reflexivity.
Defined.

(** C10 at a concrete call: [clearTimeout(0)] while timer 0 is pending. *)
Lemma clearTimeout_requires_two_arguments_witness :
  exists h',
    call_mf (native_env false) "clearTimeout" clear_0_one_argument one_shot_host
    = Some (VError "Expected %1 arguments. Received %2", h')
    /\ uncaughtException h' = Some "Error: Expected %1 arguments. Received %2"
    /\ m_timer_ptrs h' = m_timer_ptrs one_shot_host
    /\ m_script_timers h' = m_script_timers one_shot_host
    /\ qtimers h' = qtimers one_shot_host.
Proof.
  apply (clearTimeout_requires_two_arguments (native_env false) "clearTimeout"
           clear_0_one_argument one_shot_host).
  - left. reflexivity.
  - simpl. lia.
Defined.

(** The pending timer survives the one-argument call. *)
Example clearTimeout_one_argument_keeps_timer :
  match call_mf (native_env false) "clearTimeout" clear_0_one_argument one_shot_host with
  | Some (_, h') =>
      m_timer_ptrs h' !! 0 = Some 1
      /\ qtimers h' !! 1 = Some (mkQTimer 100 true)
  | None => False
  end.
Proof. vm_compute. repeat split. Qed.

(** The id is read with [toInteger], which takes NaN to 0: cancelling
    "timer NaN" cancels timer 0. *)
Example clearTimeout_of_NaN_cancels_timer_0 :
  call_mf (native_env false) "clearTimeout"
    (mkContext [VNumber S754_nan; VUndefined] VUndefined []) one_shot_host
  = Some (VInvalid, unregistered 0 1 one_shot_host).
Proof. reflexivity. Qed.

(** C7 on the code. clearTimeout, and clearInterval, which is the same
    function, ask for exactly two arguments and read only the first;
    every other native function asks for as many arguments as it reads.
    So the call of the specification, cancel(timer_id), throws, whatever
    the engine: for the id of a pending timer the entry stays in both
    tables, the timer object lives on and the timer still fires; for an
    id that the registry does not have the call is an error instead of a
    no-op. Only with a second argument, which is never looked at, is the
    pending timer cancelled. *)
Theorem clearTimeout_of_id_alone_throws :
  forall env : Env,
    let message := tr_arg env "Expected %1 arguments. Received %2" [2; 1] in
    let after_call := thrown clear_0_one_argument message one_shot_host in
    m_timer_ptrs one_shot_host !! 0 = Some 1
    /\ call_mf env "clearTimeout" clear_0_one_argument one_shot_host
       = Some (VError message, after_call)
    /\ call_mf env "clearInterval" clear_0_one_argument one_shot_host
       = Some (VError message, after_call)
    /\ uncaughtException after_call = Some (String.append "Error: " message)
    /\ m_timer_ptrs after_call !! 0 = Some 1
    /\ m_script_timers after_call !! 1
       = Some (mkTimedFunction 0 false (VString "receiver") (VFunction "thrower"))
    /\ qtimers after_call !! 1 = Some (mkQTimer 100 true)
    /\ QTimer_timeout env 1 after_call = Some (dispatchTimeout env 1 after_call)
    /\ m_timer_ptrs (running flat_world) !! 0 = None
    /\ call_mf env "clearTimeout" clear_0_one_argument (running flat_world)
       = Some (VError message,
               thrown clear_0_one_argument message (running flat_world))
    /\ call_mf env "clearTimeout" clear_0_two_arguments one_shot_host
       = Some (VInvalid, unregistered 0 1 one_shot_host)
    /\ m_timer_ptrs (unregistered 0 1 one_shot_host) !! 0 = None
    /\ QTimer_timeout env 1 (unregistered 0 1 one_shot_host) = None.
Proof. intros env message after_call. repeat split. Qed.


(** ** exit *)

Section Exit.

Context (env : Env).

(** C8. A call of exit with one numeric argument passes validation,
    throws the error "SystemExit" whatever the number is, and changes
    nothing else. At the next check of the engine that error shuts the
    host down without a diagnostic, and the code handed to the thread
    and the game, or to the application, is 1. *)
Theorem exit_discards_return_code context h c what :
  arguments context = [VNumber c] ->
  m_exiting h = false ->
  let thrown :=
    with_exception (Some "Error: SystemExit") (backtrace context) h in
  exit env context h = Some (VError "SystemExit", thrown)
  /\ checkEngine what thrown = shutdown 1 thrown
  /\ m_exiting (shutdown 1 thrown) = true
  /\ effects (shutdown 1 thrown)
     = (effects h
        ++ (if m_started_game h then [QThread_exit 1; Game_shutdown 1]
            else [QCoreApplication_exit 1]))%list.
Proof.
  intros Hargs Hrunning thrown. repeat split.
  - unfold exit, argCount, maybeThrowArgumentError, argumentCount, argument,
      throwError. rewrite Hargs. reflexivity.
  - unfold checkEngine. subst thrown. simpl. by rewrite Hrunning.
  - unfold shutdown. simpl. by destruct (m_started_game h).
  - unfold shutdown. simpl. destruct (m_started_game h); simpl; [|done].
    by rewrite <- app_assoc.
Qed.

(** The argument of exit is type-checked: anything but a number is
    refused with the argument error. *)
Lemma exit_rejects_non_number context h v :
  arguments context = [v] ->
  isNumber v = false ->
  exit env context h = Some (throwError context "Invalid Argument" h).
Proof.
  intros Hargs Hkind.
  unfold exit, argCount, maybeThrowArgumentError, argumentCount, argument.
  rewrite Hargs. simpl. by rewrite Hkind.
Qed.

End Exit.

(** A handler that calls [mf.exit(7)]: the host shuts down with code 1
    and without a diagnostic. *)
Example exit_in_handler_shuts_down_with_1 :
  match raiseEvent (script_env quitting_program false) "onChat" chat_args quitting_host with
  | Some (h1, _) =>
      m_exiting h1 = true /\ effects h1 = [QThread_exit 1; Game_shutdown 1]
  | None => False
  end.
Proof. vm_compute. repeat split. Qed.

(** C8 at a concrete call: [exit(7)] on a freshly constructed host. *)
Lemma exit_discards_return_code_witness :
  let thrown := with_exception (Some "Error: SystemExit") [] (constructed flat_world) in
  exit (native_env false) exit_7 (constructed flat_world)
  = Some (VError "SystemExit", thrown)
  /\ checkEngine "evaluating main script" thrown = shutdown 1 thrown
  /\ m_exiting (shutdown 1 thrown) = true
  /\ effects (shutdown 1 thrown) = [QCoreApplication_exit 1].
Proof.
  apply (exit_discards_return_code (native_env false) exit_7
           (constructed flat_world) (Double.of_Z 7) "evaluating main script").
  - reflexivity.
  - reflexivity.
Defined.

(** ** blockAt *)

Section BlockAt.

Context (env : Env).

(** [Double.floor] is the floor of the exact value. *)
Lemma floor_exact d :
  Double.is_finite d = true -> Double.floor d = Some (Qfloor (Double.toQ d)).
Proof.
  destruct d as [s| s | |s m e]; try discriminate; intros _; simpl; [done|].
  f_equal. destruct (Z.leb_spec 0 e) as [Hnonneg | Hneg].
  - by rewrite Qfloor_Z.
  - unfold Qfloor.
    rewrite Z2Pos.id by (apply Z.pow_pos_nonneg; lia).
    replace e with (- - e) at 1 by lia.
    rewrite Z.shiftl_opp_r, Z.shiftr_div_pow2 by lia. reflexivity.
Qed.

(** Adding one half and taking the floor gives an integer within one
    half of the value, the upper one when both are as near. *)
Lemma round_half_up_nearest v :
  (inject_Z (round_half_up v) <= Double.toQ v + (1 # 2))%Q
  /\ (Double.toQ v + (1 # 2) < inject_Z (round_half_up v + 1))%Q.
Proof. unfold round_half_up. split; [apply Qfloor_le | apply Qlt_floor]. Qed.

Lemma valueToNearestInt_floor_of_sum v :
  sum_finite v = true ->
  Double.INT_MIN <= floor_of_sum v <= Double.INT_MAX ->
  valueToNearestInt env (VNumber v) = Some (floor_of_sum v).
Proof.
  unfold sum_finite, valueToNearestInt, floor_of_sum.
  intros Hfinite Hrange. simpl toNumber.
  rewrite (floor_exact _ Hfinite).
  unfold Double.int_of_integral.
  destruct (Z.leb_spec Double.INT_MIN
              (Qfloor (Double.toQ (Double.add v Double.half))));
    destruct (Z.leb_spec (Qfloor (Double.toQ (Double.add v Double.half)))
                Double.INT_MAX);
    simpl; (done || lia).
Qed.

Lemma floor_of_exact_sum v :
  sum_exact v = true -> floor_of_sum v = round_half_up v.
Proof.
  unfold sum_exact, floor_of_sum, round_half_up. intros Hexact.
  apply Qeq_bool_iff in Hexact. by rewrite (Qfloor_comp _ _ Hexact).
Qed.

(** What blockAt computes. For a point whose x, y and z are numbers,
    blockAt asks the game for the block at the floor of the double sum
    v + 0.5 of each coordinate, provided the sum is finite and its floor
    fits an int. Wherever the double sum is exactly v plus one half, that
    floor is the integer nearest to v, halves rounded up. *)
Theorem blockAt_queries_floor_of_double_sum context h o vx vy vz :
  arguments context = [VObject o] ->
  assoc "x" o = VNumber vx ->
  assoc "y" o = VNumber vy ->
  assoc "z" o = VNumber vz ->
  sum_finite vx = true ->
  sum_finite vy = true ->
  sum_finite vz = true ->
  Double.INT_MIN <= floor_of_sum vx <= Double.INT_MAX ->
  Double.INT_MIN <= floor_of_sum vy <= Double.INT_MAX ->
  Double.INT_MIN <= floor_of_sum vz <= Double.INT_MAX ->
  let pt := mkInt3D (floor_of_sum vx) (floor_of_sum vy) (floor_of_sum vz) in
  blockAt env context h
  = Some (VObject [("type", VNumber (Double.of_Z (game_world h pt)))],
          emit (Game_blockAt pt) h)
  /\ forall v, sum_exact v = true ->
       floor_of_sum v = round_half_up v
       /\ (inject_Z (floor_of_sum v) <= Double.toQ v + (1 # 2))%Q
       /\ (Double.toQ v + (1 # 2) < inject_Z (floor_of_sum v + 1))%Q.
Proof.
  intros Hargs Hx Hy Hz Fx Fy Fz Rx Ry Rz pt. split.
  - unfold blockAt, argCount, maybeThrowArgumentError, argumentCount, argument.
    rewrite Hargs. simpl length. simpl nth. simpl isObject. cbv iota beta.
    change (Z.of_nat 1) with 1.
    replace ((1 =? -1)) with false by reflexivity.
    replace ((1 <=? 1) && (1 <=? 1)) with true by reflexivity.
    cbv iota beta. simpl negb. cbv iota.
    unfold property. rewrite Hx, Hy, Hz.
    change (toNumber env (VNumber vx)) with vx.
    change (toNumber env (VNumber vy)) with vy.
    change (toNumber env (VNumber vz)) with vz.
    rewrite !valueToNearestInt_floor_of_sum by done.
    reflexivity.
  - intros v Hexact. rewrite (floor_of_exact_sum v Hexact).
    split; [done|]. apply round_half_up_nearest.
Qed.

End BlockAt.

(** At the point of the specification: {x: 1.5, y: 2.5, z: 3.49} is
    looked up at (2, 3, 3), and there the three sums are exact. *)
Lemma blockAt_queries_floor_of_double_sum_witness :
  blockAt (native_env false)
    (mkContext [point_object d1_5 d2_5 d3_49] VUndefined [])
    (running flat_world)
  = Some (VObject [("type", VNumber (Double.of_Z 0))],
          emit (Game_blockAt (mkInt3D 2 3 3)) (running flat_world))
  /\ round_half_up d1_5 = 2 /\ round_half_up d2_5 = 3 /\ round_half_up d3_49 = 3.
Proof.
  destruct (blockAt_queries_floor_of_double_sum (native_env false)
              (mkContext [point_object d1_5 d2_5 d3_49] VUndefined [])
              (running flat_world)
              [("x", VNumber d1_5); ("y", VNumber d2_5); ("z", VNumber d3_49)]
              d1_5 d2_5 d3_49) as [Hquery Hexact];
    try reflexivity; try (vm_compute; split; discriminate).
  split; [exact Hquery|].
  destruct (Hexact d1_5) as [<- _]; [reflexivity|].
  destruct (Hexact d2_5) as [<- _]; [reflexivity|].
  destruct (Hexact d3_49) as [<- _]; [reflexivity|].
  repeat split.
Defined.

(** C5 on the code. valueToNearestInt is to give the integer nearest to
    a coordinate, halves upwards, and computes floor(v + 0.5) with the
    sum taken on doubles. At the largest double below one half,
    0.49999999999999994, the sum is a tie between two doubles and rounds
    to 1.0: the value lies strictly between 0 and one half, the integer
    nearest to it is 0, and yet blockAt looks the block up at 1 on each
    such axis, whatever the engine and the host. The point of the
    specification, {x: 1.5, y: 2.5, z: 3.49}, is looked up at
    (2, 3, 3). *)
Theorem blockAt_rounds_below_half_up_to_one :
  (0 < Double.toQ below_half)%Q
  /\ (Double.toQ below_half < 1 # 2)%Q
  /\ round_half_up below_half = 0
  /\ Double.add below_half Double.half = Double.one
  /\ (forall env, valueToNearestInt env (VNumber below_half) = Some 1)
  /\ (forall env this trace h,
        blockAt env
          (mkContext [point_object below_half below_half below_half] this trace)
          h
        = Some (VObject [("type",
                          VNumber (Double.of_Z (game_world h (mkInt3D 1 1 1))))],
                emit (Game_blockAt (mkInt3D 1 1 1)) h))
  /\ (forall env this trace h,
        blockAt env (mkContext [point_object d1_5 d2_5 d3_49] this trace) h
        = Some (VObject [("type",
                          VNumber (Double.of_Z (game_world h (mkInt3D 2 3 3))))],
                emit (Game_blockAt (mkInt3D 2 3 3)) h)).
Proof. repeat split. Qed.

(** ** The timer registry as a whole *)

Lemma timers_consistent_registry_ok h : timers_consistent h -> registry_ok h.
Proof.
  intros (Hpos & _ & _ & Htimers & Hheap). unfold registry_ok, NULL.
  split; [done|].
  assert (m_script_timers h !! 0 = None) as Hnull.
  { destruct (m_script_timers h !! 0) as [tf|] eqn:E; [|done].
    destruct (Htimers 0 tf E) as [? _]. lia. }
  split; [done|].
  destruct (qtimers h !! 0) as [t|] eqn:E; [|done].
  destruct (Hheap 0 t E) as [tf Htf]. congruence.
Qed.

Lemma constructed_consistent world : timers_consistent (constructed world).
Proof.
  unfold timers_consistent. simpl. repeat split; try done.
Qed.

Lemma ScriptRunner_setTimeout_consistent func ms this_obj repeat h new_id h' :
  timers_consistent h ->
  ScriptRunner_setTimeout func ms this_obj repeat h = Some (new_id, h') ->
  timers_consistent h'.
Proof.
  intros (Hpos & Hcount & Hptrs & Htimers & Hheap).
  unfold ScriptRunner_setTimeout, nextTimerId.
  cbn [m_timer_count with_qtimers].
  destruct (m_timer_count h <? Double.INT_MAX); [|done].
  intros [= _ <-].
  assert (m_script_timers h !! next_address h = None) as Hfresh.
  { destruct (m_script_timers h !! next_address h) as [tf|] eqn:E; [|done].
    destruct (Htimers _ tf E) as [? _]. lia. }
  assert (m_timer_ptrs h !! m_timer_count h = None) as Hfresh_id.
  { destruct (m_timer_ptrs h !! m_timer_count h) as [p|] eqn:E; [|done].
    destruct (Hptrs _ p E) as [? _]. lia. }
  unfold timers_consistent. simpl.
  split; [lia|]. split; [lia|]. split; [|split].
  - intros id p H. destruct (decide (id = m_timer_count h)) as [->|Hne].
    + rewrite lookup_insert_eq in H. injection H as <-.
      split; [lia|]. rewrite lookup_insert_eq. by eexists.
    + rewrite lookup_insert_ne in H by done.
      destruct (Hptrs _ _ H) as [? (tf & Htf & Hid)].
      split; [lia|]. exists tf. split; [|done].
      rewrite lookup_insert_ne; [done|]. intros <-. congruence.
  - intros p tf H. destruct (decide (p = next_address h)) as [->|Hne].
    + rewrite lookup_insert_eq in H. injection H as <-. simpl.
      split; [lia|]. rewrite !lookup_insert_eq. split; [done|]. by eexists.
    + rewrite lookup_insert_ne in H by done.
      destruct (Htimers _ _ H) as (? & Hback & Hlive).
      split; [lia|]. split.
      * rewrite lookup_insert_ne; [done|]. intros Heq.
        rewrite <- Heq in Hback. congruence.
      * by rewrite !lookup_insert_ne.
  - intros p t H. destruct (decide (p = next_address h)) as [->|Hne].
    + by rewrite lookup_insert_eq.
    + rewrite !lookup_insert_ne in H by done.
      rewrite lookup_insert_ne by done. by eapply Hheap.
Qed.

Lemma scheduled_consistent func ms this_obj repeat h :
  timers_consistent h -> timers_consistent (scheduled func ms this_obj repeat h).
Proof.
  intros Hok. unfold scheduled.
  destruct (ScriptRunner_setTimeout func ms this_obj repeat h)
    as [[id h']|] eqn:Hcall; [|done].
  by apply (ScriptRunner_setTimeout_consistent _ _ _ _ _ _ _ Hok Hcall).
Qed.

Lemma unregistered_consistent id timer h :
  timers_consistent h ->
  m_timer_ptrs h !! id = Some timer ->
  timers_consistent (unregistered id timer h).
Proof.
  intros (Hpos & Hcount & Hptrs & Htimers & Hheap) Hlive.
  destruct (Hptrs _ _ Hlive) as [_ (tf0 & Htf0 & Hid0)].
  assert (timer <> NULL) as Hptr.
  { destruct (Htimers _ _ Htf0) as [? _]. unfold NULL. lia. }
  unfold unregistered, delete_QTimer. apply Z.eqb_neq in Hptr. rewrite Hptr.
  unfold timers_consistent. simpl.
  split; [done|]. split; [done|]. split; [|split].
  - intros id' p H. apply lookup_delete_Some in H as [Hne H].
    destruct (Hptrs _ _ H) as [? (tf & Htf & Hid)].
    split; [done|]. exists tf. split; [|done].
    rewrite lookup_delete_ne; [done|]. intros <-. congruence.
  - intros p tf H. apply lookup_delete_Some in H as [Hne H].
    destruct (Htimers _ _ H) as (? & Hback & Hobj).
    split; [done|]. split.
    + rewrite lookup_delete_ne; [done|]. intros Heq.
      rewrite Heq in Hlive. congruence.
    + by rewrite lookup_delete_ne.
  - intros p t H. apply lookup_delete_Some in H as [Hne H].
    rewrite lookup_delete_ne by done. by eapply Hheap.
Qed.



Lemma same_registry_consistent h h' :
  same_registry h h' -> timers_consistent h -> timers_consistent h'.
Proof.
  intros (Hc & Hp & Ht & Hq & Hn). unfold timers_consistent.
  by rewrite Hc, Hp, Ht, Hq, Hn.
Qed.





Section RegistryOfNatives.

Context (env : Env).

Lemma argCount_cases context error lo hi h :
  argCount env context error lo hi h = (true, error, h)
  \/ exists message,
       argCount env context error lo hi h
       = (false, VError message, snd (throwError context message h)).
Proof.
  unfold argCount.
  destruct ((lo <=? argumentCount context)
            && (argumentCount context <=? (if hi =? -1 then lo else hi)));
    [by left|right].
  by eexists.
Qed.

Lemma maybeThrowArgumentError_cases context error valid h :
  maybeThrowArgumentError context error valid h
  = if valid then (true, error, h)
    else (false, VError "Invalid Argument",
          snd (throwError context "Invalid Argument" h)).
Proof. by destruct valid. Qed.



Lemma unregistered_unknown id h :
  registry_ok h ->
  m_timer_ptrs h !! id = None ->
  unregistered id NULL h = h.
Proof.
  intros (_ & Hnull & _) Hunknown. unfold unregistered, delete_QTimer. simpl.
  rewrite (delete_id _ _ Hunknown), (delete_id _ _ Hnull).
  by destruct h.
Qed.

(** What a cancel call that passes validation does. *)
Lemma clearTimeout_valid context h id extra int_id :
  arguments context = [VNumber id; extra] ->
  Double.to_int (Double.ToInteger id) = Some int_id ->
  clearTimeout env context h
  = Some (VInvalid,
          unregistered int_id (default NULL (m_timer_ptrs h !! int_id)) h).
Proof.
  intros Hargs Hid.
  unfold clearTimeout, argCount, maybeThrowArgumentError, argumentCount,
    argument, toInteger. rewrite Hargs. simpl. by rewrite Hid.
Qed.

Lemma clearTimeout_consistent context h v h' :
  timers_consistent h ->
  clearTimeout env context h = Some (v, h') ->
  timers_consistent h'.
Proof.
  intros Hok. unfold clearTimeout.
  destruct (argCount_cases context VInvalid 2 (-1) h) as [-> | [m ->]]; simpl;
    [|intros [= _ <-]; by apply (same_registry_consistent h)].
  rewrite !maybeThrowArgumentError_cases.
  destruct (isNumber (argument context 0)); simpl;
    [|intros [= _ <-]; by apply (same_registry_consistent h)].
  destruct (Double.to_int (toInteger env (argument context 0))) as [int_id|];
    [|done].
  intros [= _ <-].
  change (timers_consistent
            (unregistered int_id (default NULL (m_timer_ptrs h !! int_id)) h)).
  destruct (m_timer_ptrs h !! int_id) as [timer|] eqn:Hlive; simpl.
  - by apply unregistered_consistent.
  - rewrite unregistered_unknown; [done| |done].
    by apply timers_consistent_registry_ok.
Qed.














End RegistryOfNatives.

(** ** Integers as doubles *)

Lemma toQ_finite s m e :
  Double.toQ (S754_finite s m e) = dyadic (cond_Zopp s (Zpos m)) e.
Proof. reflexivity. Qed.

Lemma dyadic_shift a e k :
  0 <= k -> (dyadic (a * 2 ^ k) (e - k) == dyadic a e)%Q.
Proof.
  intros Hk. unfold dyadic.
  destruct (Z.leb_spec 0 (e - k)) as [H1|H1];
    destruct (Z.leb_spec 0 e) as [H2|H2]; unfold Qeq; simpl; try lia.
  - rewrite !Z.shiftl_mul_pow2 by lia.
    replace e with (e - k + k) at 2 by lia.
    rewrite Z.pow_add_r by lia. lia.
  - rewrite Z.shiftl_mul_pow2 by lia.
    rewrite Z2Pos.id by (apply Z.pow_pos_nonneg; lia).
    replace (- (e - k)) with (k - e) by lia.
    replace k with (k - e + e) at 1 by lia.
    rewrite Z.pow_add_r by lia. lia.
  - rewrite !Z2Pos.id by (apply Z.pow_pos_nonneg; lia).
    replace (- (e - k)) with (- e + k) by lia.
    rewrite Z.pow_add_r by lia. lia.
Qed.

Lemma digits2_pos_log2 p : Zpos (digits2_pos p) = Z.log2 (Zpos p) + 1.
Proof.
  induction p as [p IH|p IH|]; simpl digits2_pos; [| |done].
  - rewrite Pos2Z.inj_succ, IH.
    change (Zpos p~1) with (2 * Zpos p + 1).
    rewrite Z.log2_succ_double by lia. lia.
  - rewrite Pos2Z.inj_succ, IH.
    change (Zpos p~0) with (2 * Zpos p).
    rewrite Z.log2_double by lia. lia.
Qed.

Lemma iter_xO p k : Zpos (Pos.iter xO p k) = Zpos p * 2 ^ Zpos k.
Proof.
  induction k as [|k IH] using Pos.peano_ind.
  - simpl. lia.
  - rewrite Pos.iter_succ, Pos2Z.inj_succ, Z.pow_succ_r by lia.
    change (Zpos (Pos.iter xO p k)~0) with (2 * Zpos (Pos.iter xO p k)).
    rewrite IH. lia.
Qed.

(** [iter_pos], the iterator of the float library, is plain iteration. *)
Lemma iter_pos_iter {A : Type} (f : A -> A) k x :
  SpecFloat.iter_pos f k x = Pos.iter f x k.
Proof.
  revert x. induction k as [k IH|k IH|]; intros x; simpl; [| |done].
  - by rewrite !IH, !Pos.iter_swap.
  - by rewrite !IH.
Qed.

(** Shifting out zero bits is exact. *)
Lemma shr_1_even p :
  shr_1 (Build_shr_record (Zpos p~0) false false)
  = Build_shr_record (Zpos p) false false.
Proof. reflexivity. Qed.

Lemma iter_shr_1_exact k : forall p,
  Pos.iter shr_1 (Build_shr_record (Zpos (Pos.iter xO p k)) false false) k
  = Build_shr_record (Zpos p) false false.
Proof.
  induction k as [|k IH] using Pos.peano_ind; intros p.
  - reflexivity.
  - rewrite Pos.iter_succ_r. rewrite Pos.iter_succ. rewrite shr_1_even.
    apply IH.
Qed.

Lemma fexp_normal d : -1074 <= d - 53 -> fexp 53 1024 d = d - 53.
Proof. intros H. unfold fexp, emin. lia. Qed.

Lemma shr_fexp_canonical m e :
  Zpos (digits2_pos m) = 53 -> -1074 <= e ->
  shr_fexp 53 1024 (Zpos m) e loc_Exact
  = (Build_shr_record (Zpos m) false false, e).
Proof.
  intros Hd He. unfold shr_fexp. simpl Zdigits2. rewrite Hd.
  rewrite fexp_normal by lia.
  replace (53 + e - 53 - e) with 0 by lia. reflexivity.
Qed.

Lemma binary_round_aux_canonical s m e :
  Zpos (digits2_pos m) = 53 -> -1074 <= e <= 971 ->
  binary_round_aux 53 1024 s (Zpos m) e loc_Exact = S754_finite s m e.
Proof.
  intros Hd He. unfold binary_round_aux.
  rewrite shr_fexp_canonical by lia. simpl.
  rewrite shr_fexp_canonical by lia. simpl.
  change (1024 - 53) with 971.
  destruct (Z.leb_spec e 971); [done|lia].
Qed.

Lemma digits2_pos_iter_xO m k :
  Zpos (digits2_pos (Pos.iter xO m k)) = Zpos (digits2_pos m) + Zpos k.
Proof.
  induction k as [|k IH] using Pos.peano_ind.
  - simpl. lia.
  - rewrite Pos.iter_succ. simpl digits2_pos.
    rewrite Pos2Z.inj_succ, IH. lia.
Qed.

(** A mantissa of at most 53 bits is shifted up to 53 bits, exactly. *)
Lemma binary_round_short s m e :
  Zpos (digits2_pos m) <= 53 ->
  -1074 <= Zpos (digits2_pos m) + e - 53 <= 971 ->
  exists m' e',
    binary_round 53 1024 s m e = S754_finite s m' e'
    /\ (dyadic (cond_Zopp s (Zpos m')) e' == dyadic (cond_Zopp s (Zpos m)) e)%Q.
Proof.
  intros Hd He. unfold binary_round.
  rewrite fexp_normal by lia. unfold shl_align.
  destruct (Zpos (digits2_pos m) + e - 53 - e) as [|k|k] eqn:Hk; try lia.
  - rewrite binary_round_aux_canonical by lia.
    exists m, e. split; [done|reflexivity].
  - rewrite binary_round_aux_canonical
      by (rewrite ?digits2_pos_iter_xO; lia).
    eexists _, _. split; [reflexivity|].
    replace (Zpos (digits2_pos m) + e - 53) with (e - Zpos k) by lia.
    rewrite <- (dyadic_shift (cond_Zopp s (Zpos m)) e (Zpos k)) by lia.
    rewrite iter_xO. destruct s; simpl cond_Zopp;
      [rewrite Z.mul_opp_l|]; reflexivity.
Qed.

(** A longer mantissa whose low bits are zero is shifted down, exactly. *)
Lemma binary_round_long s m k e :
  Zpos (digits2_pos m) = 53 ->
  -1074 <= e + Zpos k <= 971 ->
  binary_round 53 1024 s (Pos.iter xO m k) e = S754_finite s m (e + Zpos k).
Proof.
  intros Hd He. unfold binary_round.
  rewrite digits2_pos_iter_xO, Hd.
  rewrite fexp_normal by lia. unfold shl_align.
  destruct (53 + Zpos k + e - 53 - e) as [|k'|k'] eqn:Hk; try lia.
  unfold binary_round_aux, shr_fexp. simpl Zdigits2.
  rewrite digits2_pos_iter_xO, Hd, fexp_normal by lia.
  replace (53 + Zpos k + e - 53 - e) with (Zpos k) by lia.
  unfold shr. simpl shr_record_of_loc.
  rewrite iter_pos_iter, iter_shr_1_exact. simpl.
  rewrite Hd, fexp_normal by lia.
  replace (53 + (e + Zpos k) - 53 - (e + Zpos k)) with 0 by lia. simpl.
  change (1024 - 53) with 971.
  destruct (Z.leb_spec (e + Zpos k) 971); [done|lia].
Qed.

Lemma pos_of_Z_eq (p q : positive) : Zpos p = Zpos q -> p = q.
Proof. congruence. Qed.

(** The explicit form of the short case. *)
Lemma binary_round_short_repr s m e :
  Zpos (digits2_pos m) <= 53 ->
  -1074 <= Zpos (digits2_pos m) + e - 53 <= 971 ->
  exists m',
    binary_round 53 1024 s m e
    = S754_finite s m' (Zpos (digits2_pos m) + e - 53)
    /\ Zpos m' = Zpos m * 2 ^ (53 - Zpos (digits2_pos m)).
Proof.
  intros Hd He. unfold binary_round.
  rewrite fexp_normal by lia. unfold shl_align.
  destruct (Zpos (digits2_pos m) + e - 53 - e) as [|k|k] eqn:Hk; try lia.
  - rewrite binary_round_aux_canonical by lia.
    exists m. split; [f_equal; lia|].
    replace (53 - Zpos (digits2_pos m)) with 0 by lia. lia.
  - rewrite binary_round_aux_canonical
      by (rewrite ?digits2_pos_iter_xO; lia).
    eexists. split; [reflexivity|].
    rewrite iter_xO. f_equal. f_equal. lia.
Qed.

(** The general exact case: either the mantissa has at most 53 bits, or
    the bits beyond 53 are all zero. *)
Lemma binary_round_exact s m e :
  -1074 <= Zpos (digits2_pos m) + e - 53 <= 971 ->
  (Zpos (digits2_pos m) <= 53
   \/ (2 ^ (Zpos (digits2_pos m) - 53) | Zpos m)) ->
  exists m' e',
    binary_round 53 1024 s m e = S754_finite s m' e'
    /\ (dyadic (cond_Zopp s (Zpos m')) e' == dyadic (cond_Zopp s (Zpos m)) e)%Q.
Proof.
  intros He Hcase.
  destruct (Z.le_gt_cases (Zpos (digits2_pos m)) 53) as [Hshort|Hlong].
  - by apply binary_round_short.
  - destruct Hcase as [?|[q Hq]]; [lia|].
    destruct (Zpos (digits2_pos m) - 53) as [|k|k] eqn:Hk; try lia.
    assert (0 < q) as Hqpos.
    { assert (0 < 2 ^ Zpos k) by (apply Z.pow_pos_nonneg; lia). nia. }
    assert (m = Pos.iter xO (Z.to_pos q) k) as Hm.
    { apply pos_of_Z_eq. rewrite iter_xO, Z2Pos.id by lia. exact Hq. }
    assert (Zpos (digits2_pos (Z.to_pos q)) = 53) as Hdq.
    { pose proof (digits2_pos_iter_xO (Z.to_pos q) k) as Hd.
      rewrite <- Hm in Hd. lia. }
    pose proof (binary_round_long s (Z.to_pos q) k e Hdq ltac:(lia)) as Hr.
    rewrite <- Hm in Hr. rewrite Hr.
    eexists _, _. split; [reflexivity|].
    rewrite <- (dyadic_shift (cond_Zopp s (Zpos (Z.to_pos q))) (e + Zpos k) (Zpos k))
      by lia.
    replace (e + Zpos k - Zpos k) with e by lia.
    rewrite Z2Pos.id by lia. rewrite Hq.
    destruct s; simpl cond_Zopp; [rewrite Z.mul_opp_l|]; reflexivity.
Qed.

Lemma dyadic_0 e : (dyadic 0 e == 0)%Q.
Proof.
  unfold dyadic. destruct (0 <=? e); [by rewrite Z.shiftl_0_l|reflexivity].
Qed.

Lemma dyadic_at_0 a : dyadic a 0 = inject_Z a.
Proof. reflexivity. Qed.

(** Normalising an integer mantissa that needs no rounding. *)
Lemma binary_normalize_exact a e :
  -1074 <= Z.log2 (Z.abs a) + 1 + e - 53 <= 971 ->
  (Z.log2 (Z.abs a) + 1 <= 53 \/ (2 ^ (Z.log2 (Z.abs a) + 1 - 53) | a)) ->
  Double.is_finite (binary_normalize 53 1024 a e false) = true
  /\ (Double.toQ (binary_normalize 53 1024 a e false) == dyadic a e)%Q.
Proof.
  intros He Hcase. destruct a as [|p|p]; cbn [binary_normalize].
  - split; [done|]. simpl. by rewrite dyadic_0.
  - change (Z.abs (Zpos p)) with (Zpos p) in *.
    rewrite <- digits2_pos_log2 in *.
    destruct (binary_round_exact false p e He Hcase) as (m' & e' & -> & Hv).
    split; [done|]. by rewrite toQ_finite.
  - change (Z.abs (Zneg p)) with (Zpos p) in *.
    rewrite <- digits2_pos_log2 in *.
    assert (Zpos (digits2_pos p) <= 53
            \/ (2 ^ (Zpos (digits2_pos p) - 53) | Zpos p)) as Hcase'.
    { destruct Hcase as [?|Hdiv]; [by left|right].
      by apply Z.divide_opp_r in Hdiv. }
    destruct (binary_round_exact true p e He Hcase') as (m' & e' & -> & Hv).
    split; [done|]. by rewrite toQ_finite.
Qed.

Lemma dyadic_add a b e : (dyadic (a + b) e == dyadic a e + dyadic b e)%Q.
Proof.
  unfold dyadic. destruct (0 <=? e) eqn:He.
  - apply Z.leb_le in He. rewrite !Z.shiftl_mul_pow2 by lia.
    rewrite Z.mul_add_distr_r. by rewrite inject_Z_plus.
  - unfold Qeq. simpl. lia.
Qed.

Lemma log2_abs_lt a k : 0 < k -> Z.abs a < 2 ^ k -> Z.log2 (Z.abs a) < k.
Proof.
  intros Hk Ha. destruct (Z.eq_dec a 0) as [->|Hne]; [simpl; lia|].
  apply Z.log2_lt_pow2; lia.
Qed.

(** Integers below 2^53 are doubles. *)
Lemma of_Z_exact n :
  Z.abs n < 2 ^ 53 ->
  Double.is_finite (Double.of_Z n) = true
  /\ (Double.toQ (Double.of_Z n) == inject_Z n)%Q.
Proof.
  intros Hn. pose proof (log2_abs_lt n 53 ltac:(lia) Hn).
  pose proof (Z.log2_nonneg (Z.abs n)).
  unfold Double.of_Z, Double.prec, Double.emax.
  destruct (binary_normalize_exact n 0) as [Hfin Hval]; [lia|left; lia|].
  split; [done|]. by rewrite Hval.
Qed.

Lemma of_Z_repr n :
  n <> 0 -> Z.abs n < 2 ^ 53 ->
  exists m e,
    Double.of_Z n = S754_finite (n <? 0) m e
    /\ -52 <= e <= 0
    /\ Zpos m = Z.abs n * 2 ^ (- e).
Proof.
  intros Hne Hn. pose proof (log2_abs_lt n 53 ltac:(lia) Hn) as Hlog.
  pose proof (Z.log2_nonneg (Z.abs n)) as Hlog0.
  unfold Double.of_Z, Double.prec, Double.emax.
  destruct n as [|p|p]; [done| |]; cbn [binary_normalize];
    change (Z.abs _) with (Zpos p) in *;
    pose proof (digits2_pos_log2 p) as Hdig.
  - destruct (binary_round_short_repr false p 0) as (m' & -> & Hm'); [lia..|].
    eexists _, _. split; [reflexivity|]. split; [lia|].
    rewrite Hm'. f_equal. f_equal. lia.
  - destruct (binary_round_short_repr true p 0) as (m' & -> & Hm'); [lia..|].
    eexists _, _. split; [reflexivity|]. split; [lia|].
    rewrite Hm'. f_equal. f_equal. lia.
Qed.

Lemma shl_align_down m e e' :
  e' < e ->
  exists m', shl_align m e e' = (m', e') /\ Zpos m' = Zpos m * 2 ^ (e - e').
Proof.
  intros H. unfold shl_align.
  destruct (e' - e) as [|k|k] eqn:Hk; try lia.
  eexists. split; [reflexivity|]. rewrite iter_xO. f_equal. f_equal. lia.
Qed.

(** Adding one half to an integer below 2^51 is exact. *)
Lemma add_half_of_Z n :
  Z.abs n < 2 ^ 51 ->
  Double.is_finite (Double.add (Double.of_Z n) Double.half) = true
  /\ (Double.toQ (Double.add (Double.of_Z n) Double.half)
      == inject_Z n + (1 # 2))%Q.
Proof.
  intros Hn. destruct (Z.eq_dec n 0) as [->|Hne]; [by split|].
  destruct (of_Z_repr n Hne ltac:(lia)) as (m & e & -> & He & Hm).
  unfold Double.add, Double.half, Double.prec, Double.emax, SFadd.
  replace (Z.min e (-53)) with (-53) by lia.
  destruct (shl_align_down m e (-53) ltac:(lia)) as (m' & -> & Hm').
  cbn [fst]. change (shl_align 4503599627370496 (-53) (-53))
    with (4503599627370496%positive, -53). cbn [fst cond_Zopp].
  assert (cond_Zopp (n <? 0) (Zpos m') + 4503599627370496
          = (2 * n + 1) * 2 ^ 52) as Hsum.
  { rewrite Hm', Hm, <- Z.mul_assoc, <- Z.pow_add_r by lia.
    replace (- e + (e - -53)) with 53 by lia.
    destruct (Z.ltb_spec n 0); simpl cond_Zopp; lia. }
  rewrite Hsum.
  assert (0 < Z.abs (2 * n + 1)) as Hodd by lia.
  assert (Z.log2 (Z.abs ((2 * n + 1) * 2 ^ 52))
          = 52 + Z.log2 (Z.abs (2 * n + 1))) as Hlog.
  { rewrite Z.abs_mul, (Z.abs_eq (2 ^ 52)) by lia.
    apply Z.log2_mul_pow2; lia. }
  pose proof (Z.log2_nonneg (Z.abs (2 * n + 1))) as Hlog0.
  pose proof (log2_abs_lt (2 * n + 1) 53 ltac:(lia) ltac:(lia)) as Hlog1.
  destruct (binary_normalize_exact ((2 * n + 1) * 2 ^ 52) (-53))
    as [Hfin Hval].
  - rewrite Hlog. lia.
  - right. rewrite Hlog.
    replace (52 + Z.log2 (Z.abs (2 * n + 1)) + 1 - 53)
      with (Z.log2 (Z.abs (2 * n + 1))) by lia.
    apply Z.divide_mul_r.
    exists (2 ^ (52 - Z.log2 (Z.abs (2 * n + 1)))).
    rewrite <- Z.pow_add_r by lia. f_equal. lia.
  - split; [done|]. rewrite Hval. unfold dyadic, Qeq. simpl. lia.
Qed.

Lemma Qfloor_plus_half n : Qfloor (inject_Z n + (1 # 2)) = n.
Proof.
  unfold Qfloor. simpl. symmetry. apply (Z.div_unique _ _ _ 1); lia.
Qed.

Lemma floor_of_sum_of_Z n : Z.abs n < 2 ^ 51 -> floor_of_sum (Double.of_Z n) = n.
Proof.
  intros Hn. unfold floor_of_sum.
  destruct (add_half_of_Z n Hn) as [_ Hval].
  by rewrite (Qfloor_comp _ _ Hval), Qfloor_plus_half.
Qed.

(** Integer coordinates are left as they are. *)
Lemma valueToNearestInt_of_Z env n :
  Double.INT_MIN <= n <= Double.INT_MAX ->
  valueToNearestInt env (VNumber (Double.of_Z n)) = Some n.
Proof.
  intros Hn. unfold Double.INT_MIN, Double.INT_MAX in Hn.
  assert (Z.abs n < 2 ^ 51) as Hsmall by lia.
  rewrite valueToNearestInt_floor_of_sum.
  - by rewrite floor_of_sum_of_Z.
  - unfold sum_finite. by destruct (add_half_of_Z n Hsmall).
  - rewrite floor_of_sum_of_Z by done. unfold Double.INT_MIN, Double.INT_MAX. lia.
Qed.

Lemma trunc_of_Z n : Z.abs n < 2 ^ 53 -> Double.trunc (Double.of_Z n) = Some n.
Proof.
  intros Hn. destruct (Z.eq_dec n 0) as [->|Hne]; [done|].
  destruct (of_Z_repr n Hne Hn) as (m & e & -> & He & Hm).
  simpl. f_equal. rewrite Hm.
  replace e with (- - e) at 2 by lia.
  rewrite Z.shiftl_opp_r, Z.shiftr_div_pow2, Z.div_mul by lia.
  destruct (Z.ltb_spec n 0); simpl; lia.
Qed.

Lemma ToInteger_of_Z n :
  Z.abs n < 2 ^ 53 -> Double.ToInteger (Double.of_Z n) = Double.of_Z n.
Proof.
  intros Hn. destruct (Z.eq_dec n 0) as [->|Hne]; [done|].
  pose proof (trunc_of_Z n Hn) as Ht.
  destruct (of_Z_repr n Hne Hn) as (m & e & Hrepr & He & Hm).
  rewrite Hrepr in *. simpl in *.
  destruct (0 <=? e); [done|]. by injection Ht as ->.
Qed.

(** An int that went to the script as a number comes back as the same
    int. *)
Lemma to_int_of_Z n :
  Double.INT_MIN <= n <= Double.INT_MAX ->
  Double.to_int (Double.ToInteger (Double.of_Z n)) = Some n.
Proof.
  intros Hn. unfold Double.INT_MIN, Double.INT_MAX in Hn.
  rewrite ToInteger_of_Z by lia. unfold Double.to_int.
  rewrite trunc_of_Z by lia. unfold Double.int_of_integral.
  unfold Double.INT_MIN, Double.INT_MAX.
  destruct (Z.leb_spec (- 2 ^ 31) n); destruct (Z.leb_spec n (2 ^ 31 - 1));
    simpl; (done || lia).
Qed.

Lemma ToInt32_of_Z n :
  Double.INT_MIN <= n <= Double.INT_MAX ->
  Double.ToInt32 (Double.of_Z n) = n.
Proof.
  intros Hn. unfold Double.INT_MIN, Double.INT_MAX in Hn.
  unfold Double.ToInt32. rewrite trunc_of_Z by lia.
  destruct (Z.le_gt_cases 0 n).
  - rewrite Z.mod_small by lia. destruct (Z.ltb_spec n (2 ^ 31)); lia.
  - replace (n mod 2 ^ 32) with (n + 2 ^ 32).
    + destruct (Z.ltb_spec (n + 2 ^ 32) (2 ^ 31)); lia.
    + apply Z.mod_unique with (-1); lia.
Qed.

(** ** Scheduling and cancelling *)

Lemma running_consistent world : timers_consistent (running world).
Proof. unfold timers_consistent. simpl. repeat split; try done. Qed.

Section Scheduling.

Context (env : Env).

(** Below [INT_MAX] the scheduler hands out the counter as the id. *)
Lemma ScriptRunner_setTimeout_below func ms this_obj repeat h :
  m_timer_count h < Double.INT_MAX ->
  ScriptRunner_setTimeout func ms this_obj repeat h
  = Some (m_timer_count h, scheduled func ms this_obj repeat h).
Proof.
  intros Hbelow. unfold scheduled, ScriptRunner_setTimeout, nextTimerId.
  cbn [m_timer_count with_qtimers].
  by replace (m_timer_count h <? Double.INT_MAX) with true
    by (symmetry; by apply Z.ltb_lt).
Qed.

(** What a scheduling call that passes validation does. *)
Lemma schedule_valid (repeat : bool) context h f ms ms_int :
  arguments context = [VFunction f; VNumber ms] ->
  Double.to_int (Double.ToInteger ms) = Some ms_int ->
  (if repeat then setInterval env context h else setTimeout env context h)
  = match ScriptRunner_setTimeout (VFunction f) ms_int
            (parent_thisObject context) repeat h with
    | Some (timer_id, h') => Some (VNumber (Double.of_Z timer_id), h')
    | None => None
    end.
Proof.
  intros Hargs Hms.
  destruct repeat;
    unfold setInterval, setTimeout, argCount, maybeThrowArgumentError,
      argumentCount, argument, toInteger; rewrite Hargs; simpl;
    by rewrite Hms.
Qed.

(** On a consistent registry the next id and the next address are no keys
    of any table. *)
Lemma schedule_registers_fresh_id_aux (repeat : bool) context h f ms ms_int :
  timers_consistent h ->
  arguments context = [VFunction f; VNumber ms] ->
  Double.to_int (Double.ToInteger ms) = Some ms_int ->
  m_timer_ptrs h !! m_timer_count h = None
  /\ m_script_timers h !! next_address h = None
  /\ qtimers h !! next_address h = None.
Proof.
  intros (Hpos & Hcount & Hptrs & Htimers & Hheap) _ _.
  assert (m_script_timers h !! next_address h = None) as Hfresh.
  { destruct (m_script_timers h !! next_address h) as [tf|] eqn:E; [|done].
    destruct (Htimers _ tf E) as [? _]. lia. }
  split.
  { destruct (m_timer_ptrs h !! m_timer_count h) as [p|] eqn:E; [|done].
    destruct (Hptrs _ p E) as [? _]. lia. }
  split; [done|].
  destruct (qtimers h !! next_address h) as [t|] eqn:E; [|done].
  destruct (Hheap _ _ E) as [tf Htf]. congruence.
Qed.

(** X4. While the timer counter is below INT_MAX, a scheduling call that
    passes validation returns the value of the counter as the id and
    advances the counter by one, so the counter stays an int. On a
    consistent registry that id and the address of the new timer were in
    no table before; afterwards the id leads to the timer, whose entry
    holds the function, the receiver of the calling context and the
    repeat flag of the call (false for setTimeout, true for setInterval),
    and the timer runs with the interval given. *)
Theorem schedule_registers_fresh_id (repeat : bool) context h f ms ms_int :
  timers_consistent h ->
  m_timer_count h < Double.INT_MAX ->
  arguments context = [VFunction f; VNumber ms] ->
  Double.to_int (Double.ToInteger ms) = Some ms_int ->
  exists h',
    (if repeat then setInterval env context h else setTimeout env context h)
    = Some (VNumber (Double.of_Z (m_timer_count h)), h')
    /\ m_timer_ptrs h !! m_timer_count h = None
    /\ m_script_timers h !! next_address h = None
    /\ qtimers h !! next_address h = None
    /\ m_timer_count h' = m_timer_count h + 1
    /\ m_timer_count h' <= Double.INT_MAX
    /\ m_timer_ptrs h' = <[m_timer_count h := next_address h]> (m_timer_ptrs h)
    /\ m_script_timers h'
       = <[next_address h :=
             mkTimedFunction (m_timer_count h) repeat
               (parent_thisObject context) (VFunction f)]> (m_script_timers h)
    /\ qtimers h' !! next_address h = Some (mkQTimer ms_int true).
Proof.
  intros (Hpos & Hcount & Hptrs & Htimers & Hheap) Hbelow Hargs Hms.
  eexists. split.
  { rewrite (schedule_valid repeat context h f ms ms_int Hargs Hms).
    by rewrite ScriptRunner_setTimeout_below. }
  assert (m_script_timers h !! next_address h = None) as Hfresh.
  { destruct (m_script_timers h !! next_address h) as [tf|] eqn:E; [|done].
    destruct (Htimers _ tf E) as [? _]. lia. }
  split.
  { destruct (m_timer_ptrs h !! m_timer_count h) as [p|] eqn:E; [|done].
    destruct (Hptrs _ p E) as [? _]. lia. }
  split; [done|]. split.
  { destruct (qtimers h !! next_address h) as [t|] eqn:E; [|done].
    destruct (Hheap _ _ E) as [tf Htf]. congruence. }
  unfold scheduled, ScriptRunner_setTimeout, nextTimerId.
  cbn [m_timer_count with_qtimers].
  replace (m_timer_count h <? Double.INT_MAX) with true
    by (symmetry; by apply Z.ltb_lt).
  simpl. rewrite lookup_insert_eq. repeat split; try done. lia.
Qed.

(** X5. Cancelling a timer with the value its scheduling call returned
    undoes the scheduling: the two tables and the timer objects are as
    they were before it, and the timer cannot fire. Only the counter and
    the next address have moved on. *)
Theorem clearTimeout_undoes_schedule (repeat : bool) context h f ms ms_int
    v h1 extra this trace :
  timers_consistent h ->
  m_timer_count h <= Double.INT_MAX ->
  arguments context = [VFunction f; VNumber ms] ->
  Double.to_int (Double.ToInteger ms) = Some ms_int ->
  (if repeat then setInterval env context h else setTimeout env context h)
  = Some (v, h1) ->
  exists h2,
    clearTimeout env (mkContext [v; extra] this trace) h1 = Some (VInvalid, h2)
    /\ m_timer_ptrs h2 = m_timer_ptrs h
    /\ m_script_timers h2 = m_script_timers h
    /\ qtimers h2 = qtimers h
    /\ QTimer_timeout env (next_address h) h2 = None
    /\ m_timer_count h2 = m_timer_count h + 1.
Proof.
  intros Hok Hmax Hargs Hms Hcall.
  destruct (schedule_registers_fresh_id_aux repeat context h f ms ms_int Hok Hargs Hms)
    as (Hid & Htimer & Hobject).
  rewrite (schedule_valid repeat context h f ms ms_int Hargs Hms) in Hcall.
  destruct (Z.lt_ge_cases (m_timer_count h) Double.INT_MAX) as [Hbelow|Hfull];
    [|by rewrite ScriptRunner_setTimeout_overflow in Hcall].
  rewrite ScriptRunner_setTimeout_below in Hcall by done.
  injection Hcall as <- <-.
  unfold scheduled, ScriptRunner_setTimeout, nextTimerId.
  cbn [m_timer_count with_qtimers].
  replace (m_timer_count h <? Double.INT_MAX) with true
    by (symmetry; by apply Z.ltb_lt).
  destruct Hok as (Hpos & Hcount & _).
  rewrite (clearTimeout_valid env _ _ (Double.of_Z (m_timer_count h)) extra
             (m_timer_count h)); [|done|].
  2:{ apply to_int_of_Z. unfold Double.INT_MIN. lia. }
  eexists. split; [reflexivity|].
  unfold unregistered, delete_QTimer, QTimer_timeout. simpl.
  rewrite lookup_insert_eq. simpl.
  assert ((next_address h =? NULL) = false) as ->
    by (apply Z.eqb_neq; unfold NULL; lia).
  simpl.
  rewrite (delete_insert_id _ _ _ Hid), (delete_insert_id _ _ _ Htimer).
  rewrite delete_insert_eq, (delete_insert_id _ _ _ Hobject).
  by rewrite Hobject.
Qed.

(** The three ways a cancel call can go. *)
Lemma clearTimeout_cases context h :
  clearTimeout env context h
  = if negb ((2 <=? argumentCount context) && (argumentCount context <=? 2))
    then
      let message :=
        tr_arg env "Expected %1 arguments. Received %2"
          [2; argumentCount context] in
      Some (VError message, snd (throwError context message h))
    else if negb (isNumber (argument context 0)) then
      Some (VError "Invalid Argument",
            snd (throwError context "Invalid Argument" h))
    else
      match Double.to_int (toInteger env (argument context 0)) with
      | Some int_id =>
          Some (VInvalid,
                unregistered int_id (default NULL (m_timer_ptrs h !! int_id)) h)
      | None => None
      end.
Proof.
  unfold clearTimeout, argCount. simpl.
  destruct ((2 <=? argumentCount context) && (argumentCount context <=? 2));
    simpl; [|done].
  rewrite maybeThrowArgumentError_cases.
  by destruct (isNumber (argument context 0)).
Qed.

(** X6. Cancelling is idempotent: the same cancel call made again on the
    host the first call returned gives the same value and leaves that
    host as it is, whether the call was valid or not. *)
Theorem clearTimeout_again_changes_nothing context h v h1 :
  timers_consistent h ->
  clearTimeout env context h = Some (v, h1) ->
  clearTimeout env context h1 = Some (v, h1).
Proof.
  intros Hok Hfirst.
  pose proof (clearTimeout_consistent env context h v h1 Hok Hfirst) as Hok1.
  rewrite clearTimeout_cases in Hfirst. rewrite clearTimeout_cases.
  cbv zeta in Hfirst. cbv zeta.
  destruct (negb ((2 <=? argumentCount context) && (argumentCount context <=? 2))).
  { injection Hfirst as <- <-. by destruct h. }
  destruct (negb (isNumber (argument context 0))).
  { injection Hfirst as <- <-. by destruct h. }
  destruct (Double.to_int (toInteger env (argument context 0))) as [int_id|];
    [|done].
  injection Hfirst as <- Hh1.
  assert (m_timer_ptrs h1 !! int_id = None) as Hgone.
  { rewrite <- Hh1. unfold unregistered, delete_QTimer.
    destruct (default NULL (m_timer_ptrs h !! int_id) =? NULL); simpl;
      apply lookup_delete_eq. }
  rewrite Hgone. simpl default.
  by rewrite unregistered_unknown
    by (done || by apply timers_consistent_registry_ok).
Qed.

(** X7. Cancelling one timer leaves every other timer alone: another id
    still leads to its timer, with the same entry and the same timer
    object. *)
Theorem clearTimeout_leaves_other_timers context h id extra int_id id' timer' :
  timers_consistent h ->
  arguments context = [VNumber id; extra] ->
  Double.to_int (Double.ToInteger id) = Some int_id ->
  id' <> int_id ->
  m_timer_ptrs h !! id' = Some timer' ->
  exists h',
    clearTimeout env context h = Some (VInvalid, h')
    /\ m_timer_ptrs h' !! id' = Some timer'
    /\ m_script_timers h' !! timer' = m_script_timers h !! timer'
    /\ qtimers h' !! timer' = qtimers h !! timer'.
Proof.
  intros (Hpos & Hcount & Hptrs & Htimers & Hheap) Hargs Hid Hne Hother.
  rewrite (clearTimeout_valid env context h id extra int_id Hargs Hid).
  eexists. split; [reflexivity|].
  destruct (Hptrs _ _ Hother) as [_ (tf' & Htf' & Hid')].
  destruct (Htimers _ _ Htf') as (Hrange & _).
  assert (default NULL (m_timer_ptrs h !! int_id) <> timer') as Hptr.
  { destruct (m_timer_ptrs h !! int_id) as [p|] eqn:Hlive; simpl.
    - intros ->. destruct (Hptrs _ _ Hlive) as [_ (tf & Htf & Hidp)].
      congruence.
    - unfold NULL. lia. }
  unfold unregistered, delete_QTimer.
  destruct (default NULL (m_timer_ptrs h !! int_id) =? NULL); simpl;
    rewrite ?lookup_delete_ne by done; done.
Qed.

End Scheduling.

(** ** More on the check, the dispatcher and the natives of the host *)

Lemma shutdown_exiting code h : m_exiting (shutdown code h) = true.
Proof. unfold shutdown. simpl. by destruct (m_started_game h). Qed.

(** X8. A check made on the host that a check returned does nothing: for
    one pending error the diagnostic is written and the shutdown is
    requested at most once, however many checks follow. *)
Theorem checkEngine_after_checkEngine what what' h :
  checkEngine what' (checkEngine what h) = checkEngine what h.
Proof.
  destruct (m_exiting (checkEngine what h)) eqn:Hafter.
  - unfold checkEngine at 1. by rewrite Hafter.
  - assert (checkEngine what h = h /\ uncaughtException h = None) as [-> Hnone].
    { unfold checkEngine in *. destruct (m_exiting h) eqn:Hexiting;
        [congruence|].
      destruct (uncaughtException h); [|done].
      by rewrite shutdown_exiting in Hafter. }
    unfold checkEngine. rewrite Hnone. by destruct (m_exiting h).
Qed.

Section MoreOfTheHost.

Context (env : Env).

Lemma call_handlers_compiled_out hs : forall event_name args h,
  QT_NO_DEBUG env = true ->
  exists h', call_handlers env event_name args hs h
             = Some (h', handler_invocations args (List.filter isFunction hs)).
Proof.
  induction hs as [|f hs IH]; intros event_name args h Hrelease; simpl.
  - by exists h.
  - rewrite Q_ASSERT_compiled_out by done.
    destruct (QScriptValue_call env f VInvalid args h) as [h1 called] eqn:Hcall.
    destruct (IH event_name args
                (checkEngine ("calling event handler" +:+ event_name) h1)
                Hrelease) as [h' ->].
    exists h'. f_equal. f_equal.
    destruct f; simpl in *; injection Hcall as <- <-; reflexivity.
Qed.

(** X9. In a build without assertions a dispatch passes over the entries
    of the handler array that are no functions: the calls it makes are
    the functions of the array, in order, and it always returns. *)
Theorem raiseEvent_skips_non_functions event_name args h hs :
  QT_NO_DEBUG env = true ->
  m_handler_map h !! event_name = Some (VArray hs) ->
  Z.of_nat (length hs) < 2 ^ 31 ->
  exists h',
    raiseEvent env event_name args h
    = Some (h', handler_invocations args (List.filter isFunction hs)).
Proof.
  intros Hrelease Hmap Hlen.
  rewrite (raiseEvent_array env event_name args h hs Hmap Hlen).
  destruct hs as [|f hs]; [by exists h|].
  by apply call_handlers_compiled_out.
Qed.

Lemma call_handlers_asserts hs : forall event_name args h,
  QT_NO_DEBUG env = false ->
  Exists (fun f => isFunction f = false) hs ->
  call_handlers env event_name args hs h = None.
Proof.
  induction hs as [|f hs IH]; intros event_name args h Hdebug Hbad;
    [by inversion Hbad|].
  simpl. unfold Q_ASSERT. rewrite Hdebug.
  destruct (isFunction f) eqn:Hf; [|done].
  inversion Hbad as [? ? Hhead|? ? Htail]; subst; [congruence|].
  destruct (QScriptValue_call env f VInvalid args h) as [h1 called].
  by rewrite IH.
Qed.

Lemma some_non_function hs :
  ~ Forall (fun f => isFunction f = true) hs ->
  Exists (fun f => isFunction f = false) hs.
Proof.
  induction hs as [|f hs IH]; intros Hnot; [by destruct Hnot|].
  destruct (isFunction f) eqn:Hf; [|by left].
  right. apply IH. intros Hrest. apply Hnot. by constructor.
Qed.

(** X10. In a build with assertions a dispatch to a handler array stops
    at an assertion exactly when some entry of the array is no function;
    otherwise it returns. *)
Theorem raiseEvent_asserts_functions event_name args h hs :
  QT_NO_DEBUG env = false ->
  m_handler_map h !! event_name = Some (VArray hs) ->
  Z.of_nat (length hs) < 2 ^ 31 ->
  raiseEvent env event_name args h = None
  <-> Exists (fun f => isFunction f = false) hs.
Proof.
  intros Hdebug Hmap Hlen. split.
  - intros Hstop. apply some_non_function. intros Hfun.
    destruct (raiseEvent_functions env event_name args h hs Hmap Hfun Hlen)
      as [h' Hsome].
    congruence.
  - intros Hbad.
    rewrite (raiseEvent_array env event_name args h hs Hmap Hlen).
    destruct hs as [|f hs]; [by inversion Hbad|].
    by apply call_handlers_asserts.
Qed.

(** X13. exit never returns normally: whatever the arguments, it returns
    an error that it has left pending in the engine, and nothing else of
    the host has changed. *)
Theorem exit_always_throws context h :
  exists message,
    exit env context h
    = Some (VError message,
            with_exception (Some (String.append "Error: " message))
              (backtrace context) h).
Proof.
  unfold exit.
  destruct (argCount_cases env context VInvalid 0 1 h) as [-> | [m ->]]; simpl.
  - destruct (argumentCount context =? 1).
    + rewrite maybeThrowArgumentError_cases.
      destruct (isNumber (argument context 0)); simpl; by eexists.
    + by eexists.
  - by eexists.
Qed.

(** What blockAt does with a point whose coordinates are numbers that
    convert. *)
Lemma blockAt_on_numbers context h o vx vy vz px py pz :
  arguments context = [VObject o] ->
  toNumber env (assoc "x" o) = vx ->
  toNumber env (assoc "y" o) = vy ->
  toNumber env (assoc "z" o) = vz ->
  valueToNearestInt env (VNumber vx) = Some px ->
  valueToNearestInt env (VNumber vy) = Some py ->
  valueToNearestInt env (VNumber vz) = Some pz ->
  blockAt env context h
  = Some (VObject [("type",
                    VNumber (Double.of_Z (game_world h (mkInt3D px py pz))))],
          emit (Game_blockAt (mkInt3D px py pz)) h).
Proof.
  intros Hargs Hx Hy Hz Px Py Pz.
  unfold blockAt, argCount, maybeThrowArgumentError, argumentCount, argument.
  rewrite Hargs. simpl length. simpl nth. simpl isObject. cbv iota beta.
  change (Z.of_nat 1) with 1.
  replace ((1 =? -1)) with false by reflexivity.
  replace ((1 <=? 1) && (1 <=? 1)) with true by reflexivity.
  cbv iota beta. simpl negb. cbv iota.
  unfold property. rewrite Hx, Hy, Hz, Px, Py, Pz. reflexivity.
Qed.

(** X11. Integer coordinates pass through unchanged: Point called with
    three ints builds the object that jsPoint builds for that Int3D, and
    blockAt called with that object asks the game for exactly that
    position. *)
Theorem blockAt_of_Point_queries_same_position i j k this trace this' trace' h :
  Double.INT_MIN <= i <= Double.INT_MAX ->
  Double.INT_MIN <= j <= Double.INT_MAX ->
  Double.INT_MIN <= k <= Double.INT_MAX ->
  Point env
    (mkContext [VNumber (Double.of_Z i); VNumber (Double.of_Z j);
                VNumber (Double.of_Z k)] this trace) h
  = Some (jsPoint_Int3D (mkInt3D i j k), h)
  /\ blockAt env (mkContext [jsPoint_Int3D (mkInt3D i j k)] this' trace') h
     = Some (VObject [("type",
                       VNumber (Double.of_Z (game_world h (mkInt3D i j k))))],
             emit (Game_blockAt (mkInt3D i j k)) h).
Proof.
  intros Hi Hj Hk. split; [reflexivity|].
  apply (blockAt_on_numbers _ h
           [("x", VNumber (Double.of_Z i)); ("y", VNumber (Double.of_Z j));
            ("z", VNumber (Double.of_Z k))]
           (Double.of_Z i) (Double.of_Z j) (Double.of_Z k));
    try reflexivity; by apply valueToNearestInt_of_Z.
Qed.

(** X12. blockAt does not refuse an object for lacking coordinates: a
    coordinate that the object does not have counts as 0, so an object
    with none of x, y and z is looked up at the origin. *)
Theorem blockAt_without_coordinates_queries_origin context h o :
  arguments context = [VObject o] ->
  assoc "x" o = VInvalid ->
  assoc "y" o = VInvalid ->
  assoc "z" o = VInvalid ->
  blockAt env context h
  = Some (VObject [("type",
                    VNumber (Double.of_Z (game_world h (mkInt3D 0 0 0))))],
          emit (Game_blockAt (mkInt3D 0 0 0)) h).
Proof.
  intros Hargs Hx Hy Hz.
  apply (blockAt_on_numbers context h o Double.zero Double.zero Double.zero);
    try done; by rewrite ?Hx, ?Hy, ?Hz.
Qed.

End MoreOfTheHost.

(** ** Errors of the natives *)

Section NativesOfTheRunner.

Context (engine : Engine) (world : World).

Lemma with_host_same r : with_host (host r) r = r.
Proof. by destruct r. Qed.

Lemma argCount_r_cases context error lo hi r :
  argCount_r engine context error lo hi r = (true, error, r)
  \/ exists message,
       argCount_r engine context error lo hi r
       = (false, VError message, with_host (thrown context message (host r)) r).
Proof.
  unfold argCount_r.
  destruct (argCount_cases (base engine) context error lo hi (host r))
    as [-> | [m ->]].
  - left. by rewrite with_host_same.
  - right. by exists m.
Qed.

Lemma maybeThrowArgumentError_r_cases context error valid r :
  maybeThrowArgumentError_r context error valid r
  = if valid then (true, error, r)
    else (false, VError "Invalid Argument",
          with_host (thrown context "Invalid Argument" (host r)) r).
Proof.
  unfold maybeThrowArgumentError_r. destruct valid; simpl; [|done].
  by rewrite with_host_same.
Qed.

Lemma only_threw_validation context message files_too r :
  only_threw context message files_too r
    (with_host (thrown context message (host r)) r).
Proof.
  split; [done|]. exists []. simpl. by rewrite app_nil_r.
Qed.

Ltac validation :=
  repeat first
    [ match goal with
      | |- context [argCount_r ?e ?c ?er ?lo ?hi ?r] =>
          destruct (argCount_r_cases c er lo hi r) as [-> | [? ->]]; simpl
      end
    | rewrite maybeThrowArgumentError_r_cases
    | match goal with
      | |- context [if ?b then (true, _, _) else _] => destruct b eqn:?; simpl
      end ].

Lemma chat_error context r message r' :
  chat engine context r = Some (VError message, r') ->
  only_threw context message false r r'.
Proof.
  unfold chat. validation; intros [= <- <-] || intros [=];
    apply only_threw_validation.
Qed.

Lemma print_error context r message r' :
  print engine context r = Some (VError message, r') ->
  only_threw context message false r r'.
Proof.
  unfold print. validation; intros [= <- <-] || intros [=];
    apply only_threw_validation.
Qed.

Lemma debug_error context r message r' :
  debug engine context r = Some (VError message, r') ->
  only_threw context message false r r'.
Proof.
  unfold debug. validation; intros [= <- <-] || intros [=];
    apply only_threw_validation.
Qed.

Lemma username_error context r message r' :
  username engine world context r = Some (VError message, r') ->
  only_threw context message false r r'.
Proof.
  unfold username. validation; intros [= <- <-] || intros [=];
    apply only_threw_validation.
Qed.

Lemma health_error context r message r' :
  health engine world context r = Some (VError message, r') ->
  only_threw context message false r r'.
Proof.
  unfold health. validation; intros [= <- <-] || intros [=];
    apply only_threw_validation.
Qed.

Lemma playerState_error context r message r' :
  playerState engine world context r = Some (VError message, r') ->
  only_threw context message false r r'.
Proof.
  unfold playerState. validation; intros [= <- <-] || intros [=];
    apply only_threw_validation.
Qed.

Lemma itemStackHeight_error context r message r' :
  itemStackHeight engine world context r = Some (VError message, r') ->
  only_threw context message false r r'.
Proof.
  unfold itemStackHeight. validation;
    try destruct (Double.to_int _);
    intros [= <- <-] || intros [=]; apply only_threw_validation.
Qed.

Lemma setControlState_error context r message r' :
  setControlState engine context r = Some (VError message, r') ->
  only_threw context message false r r'.
Proof.
  unfold setControlState. validation;
    try destruct (Double.to_int _);
    intros [= <- <-] || intros [=]; apply only_threw_validation.
Qed.

Lemma readFile_error context r message r' :
  readFile engine world context r = Some (VError message, r') ->
  only_threw context message false r r'.
Proof.
  unfold readFile. validation;
    try destruct (internalReadFile _ _);
    intros [= <- <-] || intros [=]; apply only_threw_validation.
Qed.

Lemma include_error context r message r' :
  include engine world context r = Some (VError message, r') ->
  only_threw context message false r r'.
Proof.
  unfold include. validation;
    try (destruct (internalReadFile _ _); [destruct (evaluate _ _ _ _)|]);
    intros [= <- <-] || intros [=]; apply only_threw_validation.
Qed.

Lemma write_loop_log path contents results : forall index log finished rest log',
  write_loop path contents index results log = Some (finished, rest, log') ->
  exists more,
    log' = (log ++ more)%list /\ Forall (fun a => is_file_action a = true) more.
Proof.
  induction results as [|written_size results IH];
    intros index log finished rest log'; simpl;
    destruct (index <? Z.of_nat (length contents)); try done.
  - intros [= _ _ <-]. exists [QFile_close path]. by repeat constructor.
  - destruct (written_size =? -1).
    + intros [= _ _ <-]. exists [QFile_close path]. by repeat constructor.
    + intros Hloop. destruct (IH _ _ _ _ _ Hloop) as (more & -> & Hfiles).
      eexists (_ :: more). rewrite <- app_assoc. split; [reflexivity|].
      by constructor.
  - intros [= _ _ <-]. exists [QFile_close path]. by repeat constructor.
Qed.

Lemma writeFile_error context r message r' :
  writeFile engine world context r = Some (VError message, r') ->
  only_threw context message true r r'.
Proof.
  unfold writeFile. validation;
    try (intros [= <- <-]; apply only_threw_validation).
  destruct (writable world _); simpl;
    [|intros [= <- <-]; apply only_threw_validation].
  destruct (write_loop _ _ _ _ _) as [[[finished rest] log]|] eqn:Hloop;
    [|done].
  destruct (write_loop_log _ _ _ _ _ _ _ _ Hloop) as (more & -> & Hfiles).
  destruct finished; [done|]. intros [= <- <-].
  split; [done|]. simpl. eexists (_ :: more). rewrite <- app_assoc.
  split; [reflexivity|]. split; [by constructor|done].
Qed.

Lemma exit_error context h message h' :
  exit (base engine) context h = Some (VError message, h') ->
  h' = thrown context message h.
Proof.
  unfold exit.
  destruct (argCount_cases (base engine) context VInvalid 0 1 h)
    as [-> | [m ->]]; simpl; [|by intros [= <- <-]].
  destruct (argumentCount context =? 1).
  - rewrite maybeThrowArgumentError_cases.
    destruct (isNumber (argument context 0)); simpl; by intros [= <- <-].
  - by intros [= <- <-].
Qed.

Lemma setTimeout_error context h message h' :
  setTimeout (base engine) context h = Some (VError message, h') ->
  h' = thrown context message h.
Proof.
  unfold setTimeout.
  destruct (argCount_cases (base engine) context VInvalid 2 (-1) h)
    as [-> | [m ->]]; simpl; [|by intros [= <- <-]].
  rewrite !maybeThrowArgumentError_cases.
  destruct (isFunction (argument context 0)); simpl; [|by intros [= <- <-]].
  destruct (isNumber (argument context 1)); simpl; [|by intros [= <- <-]].
  destruct (Double.to_int _); [|done].
  by destruct (ScriptRunner_setTimeout _ _ _ _ _) as [[new_id h1]|].
Qed.

Lemma setInterval_error context h message h' :
  setInterval (base engine) context h = Some (VError message, h') ->
  h' = thrown context message h.
Proof.
  unfold setInterval.
  destruct (argCount_cases (base engine) context VInvalid 2 (-1) h)
    as [-> | [m ->]]; simpl; [|by intros [= <- <-]].
  rewrite !maybeThrowArgumentError_cases.
  destruct (isFunction (argument context 0)); simpl; [|by intros [= <- <-]].
  destruct (isNumber (argument context 1)); simpl; [|by intros [= <- <-]].
  destruct (Double.to_int _); [|done].
  by destruct (ScriptRunner_setTimeout _ _ _ _ _) as [[new_id h1]|].
Qed.

Lemma clearTimeout_error context h message h' :
  clearTimeout (base engine) context h = Some (VError message, h') ->
  h' = thrown context message h.
Proof.
  rewrite clearTimeout_cases. cbv zeta.
  destruct (negb _); [by intros [= <- <-]|].
  destruct (negb _); [by intros [= <- <-]|].
  by destruct (Double.to_int _).
Qed.

Lemma Point_error context h message h' :
  Point (base engine) context h = Some (VError message, h') ->
  h' = thrown context message h.
Proof.
  unfold Point.
  destruct (argCount_cases (base engine) context VInvalid 3 (-1) h)
    as [-> | [m ->]]; simpl; by intros [= <- <-] || intros [=].
Qed.

Lemma blockAt_error context h message h' :
  blockAt (base engine) context h = Some (VError message, h') ->
  h' = thrown context message h.
Proof.
  unfold blockAt.
  destruct (argCount_cases (base engine) context VInvalid 1 (-1) h)
    as [-> | [m ->]]; simpl; [|by intros [= <- <-]].
  rewrite maybeThrowArgumentError_cases.
  destruct (isObject (argument context 0)); simpl; [|by intros [= <- <-]].
  destruct (valueToNearestInt _ _); [|done].
  destruct (valueToNearestInt _ _); [|done].
  by destruct (valueToNearestInt _ _).
Qed.

Lemma lift_error (f : NativeFunction) context r message r' :
  (forall h h', f context h = Some (VError message, h') ->
                h' = thrown context message h) ->
  lift f context r = Some (VError message, r') ->
  only_threw context message false r r'.
Proof.
  intros Hf. unfold lift.
  destruct (f context (host r)) as [[v h']|] eqn:Hcall; [|done].
  intros [= -> <-]. rewrite (Hf _ _ Hcall). apply only_threw_validation.
Qed.

Lemma only_threw_files context message r r' :
  only_threw context message false r r' -> only_threw context message true r r'.
Proof.
  intros [Hhost (more & Hactions & Hfiles & Hnone)].
  split; [done|]. exists more. split; [done|]. split; [done|]. intros [=].
Qed.

Lemma mf_lookup_cons k (f : Native) rest name :
  mf_lookup ((k, f) :: rest) name
  = if String.eqb k name then Some f else mf_lookup rest name.
Proof. reflexivity. Qed.

(** X14. Whichever native function of mf a script calls, with whatever
    arguments: if the call returns an error, the host is as before except
    that this error is pending in the engine, and nothing was said to the
    game or written to the output streams; at most writeFile has touched
    its file. *)
Theorem native_error_leaves_host_and_game_alone name context r message r' :
  call_native engine world name context r = Some (VError message, r') ->
  only_threw context message (String.eqb name "writeFile") r r'.
Proof.
  unfold call_native, mf_all. rewrite !mf_lookup_cons.
  rewrite (String.eqb_sym name "writeFile").
  destruct (String.eqb "writeFile" name) eqn:Hname.
  - apply String.eqb_eq in Hname. subst name. simpl.
    apply writeFile_error.
  - repeat (match goal with
            | |- context [String.eqb ?a name] =>
                destruct (String.eqb a name) eqn:?
            end);
      try done; intros Hcall;
      first
        [ by eapply include_error
        | by eapply print_error
        | by eapply debug_error
        | by eapply readFile_error
        | by eapply chat_error
        | by eapply username_error
        | by eapply itemStackHeight_error
        | by eapply health_error
        | by eapply playerState_error
        | by eapply setControlState_error
        | revert Hcall; apply lift_error; intros h h';
          first [ apply exit_error | apply setTimeout_error
                | apply setInterval_error | apply clearTimeout_error
                | apply Point_error | apply blockAt_error ] ].
Qed.

End NativesOfTheRunner.

(** ** Checks, files and start-up *)

Lemma checkEngine_checked what h : engine_checked (checkEngine what h).
Proof.
  unfold checkEngine, engine_checked.
  destruct (m_exiting h) eqn:Hexiting; [by left|].
  destruct (uncaughtException h) eqn:Hpending; [|by right].
  left. apply shutdown_exiting.
Qed.

Lemma length_list_ascii_of_string text :
  length (String.list_ascii_of_string text) = String.length text.
Proof. induction text as [|c text IH]; simpl; [done|]. by rewrite IH. Qed.

Lemma Q_ASSERT_returns {A : Type} env cond (k : option A) (a : A) :
  Q_ASSERT env cond k = Some a -> k = Some a.
Proof. unfold Q_ASSERT. by destruct (QT_NO_DEBUG env), cond. Qed.

Section FilesAndStartUp.

Context (engine : Engine) (world : World).

Lemma write_loop_chunks path contents results :
  forall index log finished rest log',
  0 <= index ->
  Forall (fun written_size => -1 <= written_size) results ->
  write_loop path contents index results log = Some (finished, rest, log') ->
  exists chunks remaining,
    log' = (log ++ file_written path chunks)%list
    /\ drop (Z.to_nat index) contents = (concat chunks ++ remaining)%list
    /\ (finished = true <-> remaining = []).
Proof.
  unfold file_written.
  induction results as [|written_size results IH];
    intros index log finished rest log' Hindex Hanswers; simpl;
    destruct (Z.ltb_spec index (Z.of_nat (length contents))) as [Hlt|Hge];
    try done.
  - intros [= <- _ <-]. exists [], []. simpl.
    split; [done|]. split; [|done]. apply drop_ge. apply Nat2Z.inj_le. by rewrite Z2Nat.id.
  - inversion Hanswers as [|? ? Hfirst Hlater]; subst.
    destruct (Z.eqb_spec written_size (-1)) as [->|Hno_error].
    + intros [= <- _ <-]. exists [], (drop (Z.to_nat index) contents).
      split; [done|]. split; [done|]. split; [done|].
      intros Hnone. apply (f_equal length) in Hnone.
      rewrite length_drop in Hnone. simpl in Hnone. lia.
    + intros Hloop.
      assert (0 <= index + written_size) as Hnext by lia.
      destruct (IH _ _ _ _ _ Hnext Hlater Hloop)
        as (chunks & remaining & -> & Hrest & Hfinished).
      exists (take (Z.to_nat written_size) (drop (Z.to_nat index) contents)
                :: chunks), remaining.
      split; [by rewrite <- app_assoc|]. split; [|done].
      simpl. rewrite <- app_assoc, <- Hrest.
      rewrite Z2Nat.inj_add by lia. rewrite <- drop_drop.
      by rewrite take_drop.
  - intros [= <- _ <-]. exists [], []. simpl.
    split; [done|]. split; [|done]. apply drop_ge. apply Nat2Z.inj_le. by rewrite Z2Nat.id.
Qed.

Lemma write_loop_returns path contents results :
  forall index log,
  0 <= index ->
  Forall (fun written_size => written_size = -1 \/ 1 <= written_size) results ->
  (length contents <= Z.to_nat index + length results)%nat ->
  is_Some (write_loop path contents index results log).
Proof.
  induction results as [|written_size results IH];
    intros index log Hindex Hanswers Hmany; simpl;
    destruct (Z.ltb_spec index (Z.of_nat (length contents))) as [Hlt|Hge];
    try done.
  - simpl in Hmany. lia.
  - inversion Hanswers as [|? ? Hfirst Hlater]; subst.
    destruct (Z.eqb_spec written_size (-1)) as [->|Hno_error]; [done|].
    apply IH; [lia|done|]. simpl in Hmany. lia.
Qed.

Lemma valid_call_r context error (r : Runner) n :
  argumentCount context = n ->
  argCount_r engine context error n (-1) r = (true, error, r).
Proof.
  intros Hn. unfold argCount_r, argCount. rewrite Hn. simpl.
  rewrite !Z.leb_refl. simpl. by destruct r.
Qed.

(** X15. On a path that opens for writing, with a device that answers
    each write by -1 or by a count of bytes, writeFile opens the file
    once, writes it in the chunks the device accepts, each chunk taken up
    where the last one ended, and closes it once, whether or not the
    device fails. Without a failure the chunks add up to the whole text
    and nothing is thrown; after a failure they are a proper prefix and
    the error names the path. *)
Theorem writeFile_writes_chunks_in_order context r path text v r' :
  arguments context = [VString path; VString text] ->
  writable world path = true ->
  Forall (fun written_size => -1 <= written_size) (write_results r) ->
  writeFile engine world context r = Some (v, r') ->
  exists chunks remaining,
    actions r'
    = (actions r ++ QFile_open path :: file_written path chunks)%list
    /\ String.list_ascii_of_string text = (concat chunks ++ remaining)%list
    /\ match remaining with
       | [] => v = VInvalid /\ host r' = host r
       | _ :: _ =>
           let message := tr_arg_string engine "Unable to write file: %1" path in
           v = VError message /\ host r' = thrown context message (host r)
       end.
Proof.
  intros Hargs Hwritable Hanswers. unfold writeFile.
  rewrite (valid_call_r _ _ _ 2) by (unfold argumentCount; by rewrite Hargs).
  unfold argument. rewrite Hargs. simpl nth. simpl isString. simpl toString.
  cbv iota beta zeta. simpl negb. cbv iota.
  repeat (rewrite maybeThrowArgumentError_r_cases;
          cbv iota beta; simpl negb; cbv iota).
  rewrite Hwritable. simpl negb. cbv iota.
  destruct (write_loop _ _ _ _ _) as [[[finished rest] log]|] eqn:Hloop;
    [|done].
  destruct (write_loop_chunks _ _ _ _ _ _ _ _ (Z.le_refl 0) Hanswers Hloop)
    as (chunks & remaining & -> & Hparts & Hfinished).
  simpl in Hparts.
  destruct finished; cbv iota beta; unfold throwError_r, throwError; simpl;
    intros [= <- <-]; exists chunks, remaining; simpl;
    (split; [by rewrite <- app_assoc|]); (split; [done|]).
  - by rewrite (proj1 Hfinished eq_refl).
  - destruct remaining; [|done]. discriminate (proj2 Hfinished eq_refl).
Qed.

(** X16. writeFile returns as long as the device makes progress: if every
    answer of the device is a failure or at least one byte, the loop ends
    after at most as many writes as the text has bytes. *)
Theorem writeFile_returns_when_device_progresses context r path text :
  arguments context = [VString path; VString text] ->
  Forall (fun written_size => written_size = -1 \/ 1 <= written_size)
    (write_results r) ->
  (String.length text <= length (write_results r))%nat ->
  exists v r', writeFile engine world context r = Some (v, r').
Proof.
  intros Hargs Hanswers Hmany. unfold writeFile.
  rewrite (valid_call_r _ _ _ 2) by (unfold argumentCount; by rewrite Hargs).
  unfold argument. rewrite Hargs. simpl nth. simpl isString. simpl toString.
  cbv iota beta zeta. simpl negb. cbv iota.
  repeat (rewrite maybeThrowArgumentError_r_cases;
          cbv iota beta; simpl negb; cbv iota).
  destruct (writable world path); simpl negb; cbv iota.
  - destruct (write_loop_returns path (String.list_ascii_of_string text)
                (write_results (act (QFile_open path) r)) 0
                (actions (act (QFile_open path) r)) (Z.le_refl 0) Hanswers)
      as [[[finished rest] log] ->].
    + simpl. by rewrite length_list_ascii_of_string.
    + destruct finished; [by eexists _, _|].
      destruct (throwError_r _ _ _) as [error r0]. by eexists _, _.
  - destruct (throwError_r _ _ _) as [error r0]. by eexists _, _.
Qed.

(** X17. A file that cannot be read is an error for include and none for
    readFile: readFile returns the invalid value and leaves the host as it
    is, include throws the message that names the path it looked at, the
    name resolved against the directory of the main script, and
    evaluates nothing. *)
Theorem missing_file_throws_in_include_only context r name :
  arguments context = [VString name] ->
  readable world name = None ->
  readable world (absoluteFilePath world (m_main_script_filename world) name)
  = None ->
  readFile engine world context r = Some (VInvalid, r)
  /\ let message :=
        tr_arg_string engine "Connot open included file: %1"
          (absoluteFilePath world (m_main_script_filename world) name) in
      include engine world context r
      = Some (VError message, with_host (thrown context message (host r)) r).
Proof.
  intros Hargs Hplain Hresolved. unfold readFile, include.
  rewrite !(valid_call_r _ _ _ 1) by (unfold argumentCount; by rewrite Hargs).
  unfold argument. rewrite Hargs. simpl nth. simpl isString. simpl toString.
  cbv iota beta zeta. simpl negb. cbv iota.
  repeat (rewrite maybeThrowArgumentError_r_cases;
          cbv iota beta; simpl negb; cbv iota).
  unfold internalReadFile. by rewrite Hplain, Hresolved.
Qed.

(** X18. When include returns without an error it has evaluated the file
    and answered for what the evaluation left: the host is shutting down
    or the engine holds no uncaught exception. *)
Theorem include_answers_for_the_evaluation context r r' :
  include engine world context r = Some (VInvalid, r') ->
  engine_checked (host r').
Proof.
  unfold include.
  destruct (argCount_r_cases engine context VInvalid 1 (-1) r)
    as [-> | [m ->]]; simpl; [|done].
  rewrite maybeThrowArgumentError_r_cases.
  destruct (isString (argument context 0)); simpl; [|done].
  destruct (internalReadFile _ _); [|done].
  destruct (evaluate _ _ _ _) as [value r0]. intros [= <-]. simpl.
  apply checkEngine_checked.
Qed.

Lemma connect_all_actions r :
  actions (connect_all r)
  = (actions r ++ map (fun c => connect (fst c) (snd c)) connections)%list.
Proof. unfold connect_all, connections. simpl. by rewrite <- !app_assoc. Qed.

(** X20. go on its own thread ends in one of two ways: the host is
    shutting down, or the game has been started as the very last thing,
    after the seven connections were made, with the host marked as
    started and no error left in the engine. *)
Theorem go_shuts_down_or_starts_game r r' :
  go engine world true r = Some r' ->
  m_exiting (host r') = true
  \/ (m_started_game (host r') = true
      /\ m_exiting (host r') = false
      /\ uncaughtException (host r') = None
      /\ exists log,
           actions r'
           = (log ++ map (fun c => connect (fst c) (snd c)) connections
                  ++ [Game_start])%list).
Proof.
  unfold go. simpl negb. cbv iota.
  destruct (evalJsonContents _ _ _ _) as [handlers r0].
  intros Hgo. apply Q_ASSERT_returns in Hgo.
  destruct (nth_error _ 1) as [prop_name|]; [|done].
  do 2 apply Q_ASSERT_returns in Hgo. cbv zeta in Hgo.
  destruct (evalJsonContents _ _ _ _) as [enum r1].
  destruct (internalReadFile _ _) as [main|];
    [|injection Hgo as <-; left; apply shutdown_exiting].
  destruct (evaluate _ _ _ _) as [result r2].
  destruct (m_exiting (host (with_host _ r2))) eqn:Hexiting;
    [injection Hgo as <-; by left|].
  injection Hgo as <-. right.
  split; [done|]. split; [exact Hexiting|].
  split.
  - destruct (checkEngine_checked "evaluating main script" (host r2))
      as [Hout|Hnone]; [|exact Hnone].
    cbn [host with_host] in Hexiting. congruence.
  - eexists. unfold act at 1. cbn [actions]. unfold with_host at 1.
    cbn [actions]. rewrite connect_all_actions, <- app_assoc. reflexivity.
Qed.


End FilesAndStartUp.

Section Checked.

Context (env : Env).

Lemma call_handlers_checked hs : forall event_name args h h' calls,
  call_handlers env event_name args hs h = Some (h', calls) ->
  h' = h \/ engine_checked h'.
Proof.
  induction hs as [|f hs IH]; intros event_name args h h' calls; simpl.
  - intros [= <- _]. by left.
  - unfold Q_ASSERT.
    destruct (QT_NO_DEBUG env); [|destruct (isFunction f); [|done]].
    all: destruct (QScriptValue_call env f VInvalid args h) as [h1 called].
    all: destruct (call_handlers env event_name args hs
                     (checkEngine ("calling event handler" +:+ event_name) h1))
           as [[h2 later]|] eqn:Hrest; [|done].
    all: intros [= <- _]; right.
    all: destruct (IH _ _ _ _ _ Hrest) as [-> | Hchecked]; [|done].
    all: apply checkEngine_checked.
Qed.

(** X19. A dispatch answers for every handler it calls: when raiseEvent
    returns, either it has called nothing and the host is as it was, or
    the host is shutting down, or the engine holds no uncaught
    exception. *)
Theorem raiseEvent_answers_for_handlers event_name args h h' calls :
  raiseEvent env event_name args h = Some (h', calls) ->
  h' = h \/ engine_checked h'.
Proof.
  unfold raiseEvent, Q_ASSERT.
  destruct (QT_NO_DEBUG env); [|destruct (isArray _); [|done]].
  all: destruct (_ =? 0); [intros [= <- _]; by left|].
  all: apply call_handlers_checked.
Qed.

End Checked.

(** ** Examples of the further properties *)

Lemma one_shot_host_consistent : timers_consistent one_shot_host.
Proof. apply scheduled_consistent, running_consistent. Qed.




Lemma schedule_registers_fresh_id_witness :
  exists h',
    setInterval (native_env false) schedule_second_100 one_shot_host
    = Some (VNumber (Double.of_Z 1), h')
    /\ m_timer_count h' = 2
    /\ qtimers h' !! 2 = Some (mkQTimer 100 true).
Proof.
  destruct (schedule_registers_fresh_id (native_env false) true
              schedule_second_100 one_shot_host "second" (Double.of_Z 100) 100)
    as (h' & Hcall & _ & _ & _ & Hcount & _ & _ & _ & Htimer).
  - apply one_shot_host_consistent.
  - reflexivity.
  - reflexivity.
  - reflexivity.
  - exists h'. split; [exact Hcall|]. split; [exact Hcount|exact Htimer].
Defined.

Lemma clearTimeout_undoes_schedule_witness :
  exists h2,
    clearTimeout (native_env false)
      (mkContext [VNumber (Double.of_Z 1); VUndefined] VUndefined [])
      two_timers_host
    = Some (VInvalid, h2)
    /\ m_timer_ptrs h2 = m_timer_ptrs one_shot_host
    /\ m_script_timers h2 = m_script_timers one_shot_host
    /\ qtimers h2 = qtimers one_shot_host
    /\ QTimer_timeout (native_env false) (next_address one_shot_host) h2 = None
    /\ m_timer_count h2 = m_timer_count one_shot_host + 1.
Proof.
  apply (clearTimeout_undoes_schedule (native_env false) false
           schedule_second_100 one_shot_host "second" (Double.of_Z 100) 100
           (VNumber (Double.of_Z 1)) two_timers_host VUndefined VUndefined []).
  - apply one_shot_host_consistent.
  - discriminate.
  - reflexivity.
  - reflexivity.
  - reflexivity.
Defined.

Lemma clearTimeout_again_changes_nothing_witness :
  clearTimeout (native_env false) clear_0_two_arguments
    (unregistered 0 1 one_shot_host)
  = Some (VInvalid, unregistered 0 1 one_shot_host).
Proof.
  apply (clearTimeout_again_changes_nothing (native_env false)
           clear_0_two_arguments one_shot_host).
  - apply one_shot_host_consistent.
  - reflexivity.
Defined.

Lemma clearTimeout_leaves_other_timers_witness :
  exists h',
    clearTimeout (native_env false) clear_0_two_arguments two_timers_host
    = Some (VInvalid, h')
    /\ m_timer_ptrs h' !! 1 = Some 2
    /\ m_script_timers h' !! 2 = m_script_timers two_timers_host !! 2
    /\ qtimers h' !! 2 = qtimers two_timers_host !! 2.
Proof.
  apply (clearTimeout_leaves_other_timers (native_env false)
           clear_0_two_arguments two_timers_host (Double.of_Z 0) VUndefined 0
           1 2).
  - apply scheduled_consistent, one_shot_host_consistent.
  - reflexivity.
  - reflexivity.
  - discriminate.
  - reflexivity.
Defined.

Lemma raiseEvent_skips_non_functions_witness :
  exists h',
    raiseEvent (native_env true) "onChat" chat_args mixed_host
    = Some (h', handler_invocations chat_args [VFunction "second"]).
Proof.
  apply (raiseEvent_skips_non_functions (native_env true) "onChat" chat_args
           mixed_host [VFunction "second"; VString "second"]).
  - reflexivity.
  - reflexivity.
  - reflexivity.
Defined.

Lemma raiseEvent_asserts_functions_witness :
  raiseEvent (native_env false) "onChat" chat_args mixed_host = None.
Proof.
  apply (raiseEvent_asserts_functions (native_env false) "onChat" chat_args
           mixed_host [VFunction "second"; VString "second"]).
  - reflexivity.
  - reflexivity.
  - reflexivity.
  - apply Exists_cons_tl, Exists_cons_hd. reflexivity.
Defined.

Lemma blockAt_of_Point_queries_same_position_witness :
  Point (native_env false)
    (mkContext [VNumber (Double.of_Z 1); VNumber (Double.of_Z (-2));
                VNumber (Double.of_Z 3)] VUndefined []) (running flat_world)
  = Some (jsPoint_Int3D (mkInt3D 1 (-2) 3), running flat_world)
  /\ blockAt (native_env false)
       (mkContext [jsPoint_Int3D (mkInt3D 1 (-2) 3)] VUndefined [])
       (running flat_world)
     = Some (VObject [("type",
                       VNumber (Double.of_Z (flat_world (mkInt3D 1 (-2) 3))))],
             emit (Game_blockAt (mkInt3D 1 (-2) 3)) (running flat_world)).
Proof.
  apply (blockAt_of_Point_queries_same_position (native_env false) 1 (-2) 3
           VUndefined [] VUndefined [] (running flat_world)).
  - split; discriminate.
  - split; discriminate.
  - split; discriminate.
Defined.

Lemma blockAt_without_coordinates_queries_origin_witness :
  blockAt (native_env false) (mkContext [VObject []] VUndefined [])
    (running flat_world)
  = Some (VObject [("type", VNumber (Double.of_Z 0))],
          emit (Game_blockAt (mkInt3D 0 0 0)) (running flat_world)).
Proof.
  apply (blockAt_without_coordinates_queries_origin (native_env false)
           (mkContext [VObject []] VUndefined []) (running flat_world) []).
  - reflexivity.
  - reflexivity.
  - reflexivity.
  - reflexivity.
Defined.

Lemma native_error_leaves_host_and_game_alone_witness :
  only_threw chat_nothing "Expected %1 arguments. Received %2" false
    fresh_runner
    (with_host
       (thrown chat_nothing "Expected %1 arguments. Received %2"
          (host fresh_runner)) fresh_runner).
Proof.
  apply (native_error_leaves_host_and_game_alone example_engine example_world
           "chat" chat_nothing fresh_runner).
  reflexivity.
Defined.

Lemma writeFile_writes_chunks_in_order_witness :
  exists chunks remaining,
    [QFile_open "out.txt";
     QFile_write "out.txt" (String.list_ascii_of_string "he");
     QFile_write "out.txt" (String.list_ascii_of_string "llo");
     QFile_close "out.txt"]
    = (actions fresh_runner
         ++ QFile_open "out.txt" :: file_written "out.txt" chunks)%list
    /\ String.list_ascii_of_string "hello" = (concat chunks ++ remaining)%list
    /\ match remaining with
       | [] => VInvalid = VInvalid /\ host fresh_runner = host fresh_runner
       | _ :: _ =>
           let message :=
             tr_arg_string example_engine "Unable to write file: %1" "out.txt" in
           VInvalid = VError message
           /\ host fresh_runner = thrown write_hello message (host fresh_runner)
       end.
Proof.
  apply (writeFile_writes_chunks_in_order example_engine example_world
           write_hello fresh_runner "out.txt" "hello" VInvalid
           (mkRunner (host fresh_runner)
              [QFile_open "out.txt";
               QFile_write "out.txt" (String.list_ascii_of_string "he");
               QFile_write "out.txt" (String.list_ascii_of_string "llo");
               QFile_close "out.txt"] [])).
  - reflexivity.
  - reflexivity.
  - repeat constructor; discriminate.
  - reflexivity.
Defined.

Lemma writeFile_returns_when_device_progresses_witness :
  exists v r',
    writeFile example_engine example_world
      (mkContext [VString "out.txt"; VString "hi"] VUndefined []) fresh_runner
    = Some (v, r').
Proof.
  apply (writeFile_returns_when_device_progresses example_engine example_world
           (mkContext [VString "out.txt"; VString "hi"] VUndefined [])
           fresh_runner "out.txt" "hi").
  - reflexivity.
  - constructor; [right; discriminate|].
    constructor; [right; discriminate|constructor].
  - simpl. lia.
Defined.

Lemma missing_file_throws_in_include_only_witness :
  readFile example_engine example_world read_none fresh_runner
  = Some (VInvalid, fresh_runner)
  /\ let message :=
        tr_arg_string example_engine "Connot open included file: %1"
          (absoluteFilePath example_world
             (m_main_script_filename example_world) "none.js") in
      include example_engine example_world read_none fresh_runner
      = Some (VError message,
              with_host (thrown read_none message (host fresh_runner))
                fresh_runner).
Proof.
  apply (missing_file_throws_in_include_only example_engine example_world
           read_none fresh_runner "none.js").
  - reflexivity.
  - reflexivity.
  - reflexivity.
Defined.

Lemma include_answers_for_the_evaluation_witness :
  engine_checked
    (checkEngine "evaluating included file"
       (with_exception (Some "Error: 1") [] (host fresh_runner))).
Proof.
  apply (include_answers_for_the_evaluation example_engine example_world
           include_lib fresh_runner
           (with_host
              (checkEngine "evaluating included file"
                 (with_exception (Some "Error: 1") [] (host fresh_runner)))
              fresh_runner)).
  reflexivity.
Defined.

Lemma raiseEvent_answers_for_handlers_witness :
  exists h' calls,
    raiseEvent (script_env throwing_program false) "onChat" chat_args
      throwing_host
    = Some (h', calls)
    /\ (h' = throwing_host \/ engine_checked h').
Proof.
  pose (raised := default (throwing_host, [])
                    (raiseEvent (script_env throwing_program false) "onChat"
                       chat_args throwing_host)).
  assert (raiseEvent (script_env throwing_program false) "onChat" chat_args
            throwing_host
          = Some (fst raised, snd raised)) as Hcall
    by (vm_compute; reflexivity).
  exists (fst raised), (snd raised). split; [exact Hcall|].
  exact (raiseEvent_answers_for_handlers (script_env throwing_program false)
           "onChat" chat_args throwing_host (fst raised) (snd raised) Hcall).
Defined.

Lemma go_shuts_down_or_starts_game_witness :
  exists r',
    go example_engine example_world true fresh_runner = Some r'
    /\ (m_exiting (host r') = true
        \/ (m_started_game (host r') = true
            /\ m_exiting (host r') = false
            /\ uncaughtException (host r') = None
            /\ exists log,
                 actions r'
                 = (log ++ map (fun c => connect (fst c) (snd c)) connections
                        ++ [Game_start])%list)).
Proof.
  exists (default fresh_runner
            (go example_engine example_world true fresh_runner)).
  assert (go example_engine example_world true fresh_runner
          = Some (default fresh_runner
                    (go example_engine example_world true fresh_runner)))
    as Hgo by reflexivity.
  split; [exact Hgo|].
  exact (go_shuts_down_or_starts_game example_engine example_world
           fresh_runner _ Hgo).
Defined.
